(** * SolarSystem3D: a shallow embedding of [src/main.cpp]

    The development follows the program's own division of labour:

    - [Unsigned]   : 32-bit [unsigned int] arithmetic;
    - [Sphere]     : [createSphere], the UV-sphere mesh generator;
    - [Glm]        : the vectors of the glm library, as far as they are used;
    - [Kinematics] : the per-frame orbit update, [earthPos], [moonPos] and the
                     position resolution of the draw loop and of
                     [updateCameraFollow];
    - [Controls]   : the camera-mode state machine of the render loop and the
                     mouse and scroll callbacks;
    - [Asteroids]  : the asteroid belt loop, with [rand()] as explicit state;
    - [Floats], [FloatControls] : the input callbacks again, on floats with
                     infinities and NaN.

    Conventions.  C++ [float] values are idealised as real numbers ([R] of the
    Standard Library): rounding is not modelled, and infinities and NaN are
    modelled for the input callbacks only, in [FloatControls].
    [unsigned int] values are integers in [0, 2^32) with the wrap-around of
    every operation written out.  A loop that the C++ code may fail to leave
    is run with fuel and yields [None] when the fuel is exhausted. *)

From Stdlib Require Import ZArith List Bool Lia Reals Lra.
From Stdlib Require Import Machin.
Import ListNotations.

#[local] Open Scope Z_scope.

(* ================================================================= *)
(** ** 32-bit unsigned arithmetic *)

Module Unsigned.

Definition UINT_MAX : Z := 4294967295.

(** Reduction of a mathematical result to its [unsigned int] value. *)
Definition wrap32 (z : Z) : Z := z mod 4294967296.

Definition uadd (a b : Z) : Z := wrap32 (a + b).
Definition usub (a b : Z) : Z := wrap32 (a - b).
Definition umul (a b : Z) : Z := wrap32 (a * b).

(** [++i] on an [unsigned int]. *)
Definition uincr (a : Z) : Z := uadd a 1.

Definition is_uint (z : Z) : Prop := 0 <= z <= UINT_MAX.

End Unsigned.

(* ================================================================= *)
(** ** The sphere mesh generator *)

Module Sphere.
Import Unsigned.

(** [#define M_PI 3.14159265358979323846] *)
Definition M_PI : R := 3.14159265358979323846%R.

(** The two output vectors of [createSphere]: eight floats per vertex
    (position, normal, texture coordinate) and three indices per triangle. *)
Definition buffers : Type := (list R * list Z)%type.

Section createSphere.

Variable radius : R.
Variables sectorCount stackCount : Z.

Definition lengthInv : R := (1 / radius)%R.
Definition sectorStep : R := (2 * M_PI / IZR sectorCount)%R.
Definition stackStep : R := (M_PI / IZR stackCount)%R.

(** The eight values pushed for the vertex of ring [i] and column [j].
    With a count of zero the code divides by zero and stores infinities or
    NaN where the real division here gives a number: what is stated about
    the values of a vertex assumes positive counts. *)
Definition vertex (i j : Z) : list R :=
  let stackAngle := (M_PI / 2 - IZR i * stackStep)%R in
  let xy := (radius * cos stackAngle)%R in
  let y := (radius * sin stackAngle)%R in
  let sectorAngle := (IZR j * sectorStep)%R in
  let x := (xy * cos sectorAngle)%R in
  let z := (xy * sin sectorAngle)%R in
  let nx := (x * lengthInv)%R in
  let ny := (y * lengthInv)%R in
  let nz := (z * lengthInv)%R in
  let s := (1 - IZR j / IZR sectorCount)%R in
  let t := (1 - IZR i / IZR stackCount)%R in
  [x; y; z; nx; ny; nz; s; t].

(** [for (unsigned int j = 0; j <= sectorCount; ++j)]: eight [push_back]s
    per turn. *)
Fixpoint sector_loop (fuel : nat) (i j : Z) (vertices : list R)
  : option (list R) :=
  match fuel with
  | O => None
  | S fuel' =>
      if j <=? sectorCount
      then sector_loop fuel' i (uincr j) (vertices ++ vertex i j)
      else Some vertices
  end.

(** [for (unsigned int i = 0; i <= stackCount; ++i)]. *)
Fixpoint stack_loop (fuel : nat) (i : Z) (vertices : list R)
  : option (list R) :=
  match fuel with
  | O => None
  | S fuel' =>
      if i <=? stackCount
      then match sector_loop fuel' i 0 vertices with
           | Some vertices' => stack_loop fuel' (uincr i) vertices'
           | None => None
           end
      else Some vertices
  end.

(** The body of the inner index loop: the quad between rings [i] and [i+1]
    at running indices [k1] (upper ring) and [k2] (lower ring). *)
Definition quad (i k1 k2 : Z) : list Z :=
  (if negb (i =? 0) then [k1; k2; uadd k1 1] else [])
  ++ (if negb (i =? usub stackCount 1) then [uadd k1 1; k2; uadd k2 1] else []).

(** [for (unsigned int j = 0; j < sectorCount; ++j, ++k1, ++k2)]. *)
Fixpoint quad_loop (fuel : nat) (i j k1 k2 : Z) (indices : list Z)
  : option (list Z) :=
  match fuel with
  | O => None
  | S fuel' =>
      if j <? sectorCount
      then quad_loop fuel' i (uincr j) (uincr k1) (uincr k2)
             (indices ++ quad i k1 k2)
      else Some indices
  end.

(** [for (unsigned int i = 0; i < stackCount; ++i)], with
    [k1 = i * (sectorCount + 1)] and [k2 = k1 + sectorCount + 1]. *)
Fixpoint ring_loop (fuel : nat) (i : Z) (indices : list Z)
  : option (list Z) :=
  match fuel with
  | O => None
  | S fuel' =>
      if i <? stackCount
      then let k1 := umul i (uadd sectorCount 1) in
           let k2 := uadd (uadd k1 sectorCount) 1 in
           match quad_loop fuel' i 0 k1 k2 indices with
           | Some indices' => ring_loop fuel' (uincr i) indices'
           | None => None
           end
      else Some indices
  end.

(** [void createSphere(vertices, indices, radius, sectorCount, stackCount)]:
    the two vectors are passed by reference and returned here. *)
Definition createSphere (fuel : nat) (vertices : list R) (indices : list Z)
  : option buffers :=
  match stack_loop fuel 0 vertices with
  | Some vertices' =>
      match ring_loop fuel 0 indices with
      | Some indices' => Some (vertices', indices')
      | None => None
      end
  | None => None
  end.

(** *** Closed forms of the loops *)

(** The vertices of columns [j .. j+n-1] of ring [i]. *)
Fixpoint row_from (i j : Z) (n : nat) : list R :=
  match n with
  | O => []
  | S n' => vertex i j ++ row_from i (j + 1) n'
  end.

(** The vertices of rings [i .. i+n-1], each with its [sectorCount+1] columns. *)
Fixpoint rows_from (i : Z) (n : nat) : list R :=
  match n with
  | O => []
  | S n' => row_from i 0 (Z.to_nat (sectorCount + 1)) ++ rows_from (i + 1) n'
  end.

(** The indices of the quads [j .. j+n-1] between rings [i] and [i+1]. *)
Fixpoint quads_from (i j : Z) (n : nat) : list Z :=
  match n with
  | O => []
  | S n' =>
      quad i (wrap32 (i * (sectorCount + 1) + j))
             (wrap32 ((i + 1) * (sectorCount + 1) + j))
      ++ quads_from i (j + 1) n'
  end.

Fixpoint rings_from (i : Z) (n : nat) : list Z :=
  match n with
  | O => []
  | S n' => quads_from i 0 (Z.to_nat sectorCount) ++ rings_from (i + 1) n'
  end.

Definition sphere_vertices : list R := rows_from 0 (Z.to_nat (stackCount + 1)).
Definition sphere_indices : list Z := rings_from 0 (Z.to_nat stackCount).

(** The number of indices one quad contributes in ring [i]. *)
Definition quad_size (i : Z) : Z :=
  (if i =? 0 then 0 else 3) + (if i =? usub stackCount 1 then 0 else 3).

(** An index that refers to one of the generated vertices. *)
Definition in_mesh (k : Z) : Prop :=
  0 <= k < (stackCount + 1) * (sectorCount + 1).

End createSphere.

(** Parameters for which no sphere exists: a count of zero or a radius that
    is not positive.  (A negative count cannot be passed: the counts are
    [unsigned int].) *)
Definition invalid_parameters (radius : R) (sectorCount stackCount : Z) : Prop :=
  (radius <= 0)%R \/ sectorCount = 0 \/ stackCount = 0.

(** A call that produces no geometry: it does not return, or it returns
    with the two vectors as they were passed in.  Any way of rejecting the
    parameters before generating has this property. *)
Definition rejects (radius : R) (sectorCount stackCount : Z) : Prop :=
  forall fuel vertices indices result,
    createSphere radius sectorCount stackCount fuel vertices indices = Some result ->
    result = (vertices, indices).

End Sphere.

(* ================================================================= *)
(** ** Vectors *)

Module Glm.

#[local] Open Scope R_scope.

(** [glm::vec3] *)
Record vec3 : Type := Vec3 { vx : R; vy : R; vz : R }.

(** [glm::vec3(0.0f)] *)
Definition zero3 : vec3 := Vec3 0 0 0.

(** [operator+] on [glm::vec3] *)
Definition vadd (a b : vec3) : vec3 :=
  Vec3 (vx a + vx b) (vy a + vy b) (vz a + vz b).

(** [glm::two_pi<float>()] *)
Definition two_pi : R := 2 * PI.

End Glm.

(* ================================================================= *)
(** ** Orbital kinematics *)

Module Kinematics.
Import Glm.

#[local] Open Scope R_scope.

Record Planet : Type := mkPlanet {
  orbitRadius : R;
  orbitSpeed : R;        (* radians/sec *)
  selfRotateSpeed : R;   (* radians/sec *)
  size : R;
  color : vec3;
  texture : Z;
  orbitAngle : R         (* updated each frame *)
}.

Definition set_orbitAngle (a : R) (p : Planet) : Planet :=
  mkPlanet (orbitRadius p) (orbitSpeed p) (selfRotateSpeed p) (size p)
           (color p) (texture p) a.

(** The texture handles returned by [loadTexture], one per body. *)
Record Textures : Type := mkTextures {
  sunTexture : Z; mercuryTexture : Z; venusTexture : Z; earthTexture : Z;
  moonTexture : Z; marsTexture : Z; jupiterTexture : Z; saturnTexture : Z;
  uranusTexture : Z; neptuneTexture : Z
}.

(** The initialiser list assigned to [planets] in [main]. *)
Definition roster (tx : Textures) : list Planet :=
  [ mkPlanet 0 0 0.5 0.625 (Vec3 1 0.9 0.3) (sunTexture tx) 0;
    mkPlanet 0.975 4.15 1 0.045 (Vec3 0.7 0.7 0.7) (mercuryTexture tx) 0;
    mkPlanet 1.8 1.62 1.2 0.1125 (Vec3 1 0.8 0.5) (venusTexture tx) 0;
    mkPlanet 2.5 1 1.5 0.125 (Vec3 0.5 0.7 1) (earthTexture tx) 0;
    mkPlanet 0.2 12 2 0.0325 (Vec3 0.8 0.8 0.8) (moonTexture tx) 0;
    mkPlanet 3.8 0.53 1 0.0675 (Vec3 1 0.5 0.3) (marsTexture tx) 0;
    mkPlanet 13 0.08 0.8 0.25 (Vec3 1 0.8 0.5) (jupiterTexture tx) 0;
    mkPlanet 23.95 0.03 0.7 0.2125 (Vec3 1 0.9 0.6) (saturnTexture tx) 0;
    mkPlanet 47.95 0.011 0.6 0.15 (Vec3 0.7 0.9 1) (uranusTexture tx) 0;
    mkPlanet 75.175 0.006 0.5 0.145 (Vec3 0.5 0.7 1) (neptuneTexture tx) 0 ].

(** Texture handles to run the roster with: the names a fresh context hands
    out, in the order in which [main] loads the images of the bodies. *)
Definition loaded_textures : Textures := mkTextures 1 2 3 4 5 6 7 8 9 10.

(** The globals the kinematics code reads and writes. *)
Record World : Type := mkWorld {
  planets : list Planet;
  earthPos : vec3;
  moonPos : vec3
}.

(** The world before the first frame. *)
Definition initial_world (tx : Textures) : World :=
  mkWorld (roster tx) (Vec3 0 0 0) (Vec3 0 0 0).

(** The value read where [planets[i]] is out of range; the theorems below
    only read inside the vector. *)
Definition no_planet : Planet := mkPlanet 0 0 0 0 zero3 0 0.

(** [planets[i]] *)
Definition planet_at (ps : list Planet) (i : nat) : Planet := nth i ps no_planet.

(** [glm::vec3(cos(p.orbitAngle) * p.orbitRadius, 0.0f,
              sin(p.orbitAngle) * p.orbitRadius)] *)
Definition orbit_vec (p : Planet) : vec3 :=
  Vec3 (cos (orbitAngle p) * orbitRadius p) 0 (sin (orbitAngle p) * orbitRadius p).

(** "Animate planet orbits": [planets[0].orbitAngle = 0.0f] and then, for
    [i] from 1, [planets[i].orbitAngle = currentFrame * planets[i].orbitSpeed]. *)
Definition animate_orbits (currentFrame : R) (ps : list Planet) : list Planet :=
  match ps with
  | [] => []
  | sun :: rest =>
      set_orbitAngle 0 sun
      :: map (fun p => set_orbitAngle (currentFrame * orbitSpeed p) p) rest
  end.

(** The kinematics part of one turn of the render loop: the orbit angles,
    then [earthPos], then [moonPos]. *)
Definition animate (currentFrame : R) (w : World) : World :=
  let ps := animate_orbits currentFrame (planets w) in
  let earth := orbit_vec (planet_at ps 3) in
  let moon := vadd earth (orbit_vec (planet_at ps 4)) in
  mkWorld ps earth moon.

(** [glm::vec3 sunPos(0.0f, 0.0f, 0.0f)] *)
Definition sunPos : vec3 := Vec3 0 0 0.

(** The position [pos] that the "Draw planets" loop gives body [i]. *)
Definition draw_pos (w : World) (i : nat) : vec3 :=
  if Nat.eqb i 0 then zero3
  else if Nat.eqb i 4 then vadd (earthPos w) (orbit_vec (planet_at (planets w) 4))
  else if Nat.eqb i 3 then earthPos w
  else orbit_vec (planet_at (planets w) i).

(** The position [pos] that [updateCameraFollow] gives the followed body
    [idx = followedPlanetIdx], an [int]. *)
Definition follow_pos (w : World) (idx : Z) : vec3 :=
  if (idx =? 4)%Z then vadd (earthPos w) (orbit_vec (planet_at (planets w) 4))
  else if (idx =? 3)%Z then earthPos w
  else orbit_vec (planet_at (planets w) (Z.to_nat idx)).

(** The body a body orbits: the Moon (index 4) orbits the Earth (index 3),
    every other body orbits the Sun (index 0). *)
Definition parent_of (i : nat) : nat := if Nat.eqb i 4 then 3%nat else 0%nat.

(** The offset of a body from the body it orbits, at simulation time [t]. *)
Definition orbit_offset (p : Planet) (t : R) : vec3 :=
  Vec3 (orbitRadius p * cos (t * orbitSpeed p)) 0
       (orbitRadius p * sin (t * orbitSpeed p)).

End Kinematics.

(* ================================================================= *)
(** ** Camera modes and input *)

Module Controls.

#[local] Open Scope R_scope.

Inductive CameraMode : Type := FOLLOW_PLANET | FREE.

Definition mode_eqb (a b : CameraMode) : bool :=
  match a, b with
  | FOLLOW_PLANET, FOLLOW_PLANET | FREE, FREE => true
  | _, _ => false
  end.

(** The part of the [Camera] object that the callbacks write through its
    member functions: the look angles and the field of view.  [Position],
    [Front] and [Up], which [processInput] and [updateCameraFollow] write,
    are not read by the input code and are left out. *)
Record Camera : Type := mkCamera { Yaw : R; Pitch : R; Zoom : R }.

Section CameraClass.

(** The constants of the camera class: its mouse sensitivity and the two
    ends of the field-of-view range. *)
Variables (MouseSensitivity ZoomMin ZoomMax : R).

(** Modelled from the spec: [Camera::ProcessMouseMovement] of
    [learnopengl/camera.h], which is not among the sources.  Mouse movement
    adjusts yaw and pitch; yaw is not clamped, pitch is clamped to
    [-89, 89] degrees. *)
Definition ProcessMouseMovement (xoffset yoffset : R) (c : Camera) : Camera :=
  let yaw := Yaw c + xoffset * MouseSensitivity in
  let pitch := Pitch c + yoffset * MouseSensitivity in
  let pitch := if Rlt_dec 89 pitch then 89 else pitch in
  let pitch := if Rlt_dec pitch (-89) then -89 else pitch in
  mkCamera yaw pitch (Zoom c).

(** Modelled from the spec: [Camera::ProcessMouseScroll] of
    [learnopengl/camera.h], which is not among the sources.  Scroll adjusts
    the field of view, which is clamped to a fixed range. *)
Definition ProcessMouseScroll (yoffset : R) (c : Camera) : Camera :=
  let zoom := Zoom c - yoffset in
  let zoom := if Rlt_dec zoom ZoomMin then ZoomMin else zoom in
  let zoom := if Rlt_dec ZoomMax zoom then ZoomMax else zoom in
  mkCamera (Yaw c) (Pitch c) zoom.

(** The globals of [main.cpp] that the input code reads and writes. *)
Record State : Type := mkState {
  cameraMode : CameraMode;
  followedPlanetIdx : Z;
  camera : Camera;
  lastX : R;
  lastY : R;
  firstMouse : bool;
  qPressedLast : bool;
  ePressedLast : bool;
  wasdPressedLast : bool;
  orbitYaw : R;
  orbitPitch : R;
  orbitDistance : R
}.

(** The initialisers of the globals; [SCR_WIDTH = 1280], [SCR_HEIGHT = 720].
    [camera0] stands for what the constructor of [Camera] builds. *)
Definition initial (camera0 : Camera) : State :=
  mkState FOLLOW_PLANET 3 camera0 (1280 / 2) (720 / 2) true
          false false false 0 20 3.

(** What [glfwGetKey] reports in one turn of the render loop. *)
Record Keys : Type := mkKeys {
  keyW : bool; keyA : bool; keyS : bool; keyD : bool; keyQ : bool; keyE : bool
}.

Definition wasdPressed (k : Keys) : bool :=
  keyW k || keyA k || keyS k || keyD k.

(** "Planet switching" and the change to the free camera, once per turn of
    the render loop.  [followedPlanetIdx] is an [int]; it stays between 0
    and 10 on every path from a value between 1 and 9, so no overflow is
    modelled. *)
Definition poll_keys (k : Keys) (s : State) : State :=
  let wasd := wasdPressed k in
  let qPressed := keyQ k in
  let ePressed := keyE k in
  let idx := followedPlanetIdx s in
  let mode := cameraMode s in
  let '(idx, mode) :=
    if qPressed && negb (qPressedLast s)
    then let idx := (idx - 1)%Z in
         ((if (idx <? 1)%Z then 9%Z else idx), FOLLOW_PLANET)
    else (idx, mode) in
  let '(idx, mode) :=
    if ePressed && negb (ePressedLast s)
    then let idx := (idx + 1)%Z in
         ((if (idx >? 9)%Z then 1%Z else idx), FOLLOW_PLANET)
    else (idx, mode) in
  let mode :=
    if mode_eqb mode FOLLOW_PLANET && wasd && negb (wasdPressedLast s)
    then FREE else mode in
  mkState mode idx (camera s) (lastX s) (lastY s) (firstMouse s)
          qPressed ePressed wasd
          (orbitYaw s) (orbitPitch s) (orbitDistance s).

(** [mouse_callback], while every value stays finite: the cast of a
    position beyond [FLT_MAX] and what follows from it (an infinity, then
    NaN) is in [FloatControls.mouse_callback] below. *)
Definition mouse_callback (xpos ypos : R) (s : State) : State :=
  let '(lx, ly) := if firstMouse s then (xpos, ypos) else (lastX s, lastY s) in
  let xoffset := xpos - lx in
  let yoffset := ly - ypos in
  match cameraMode s with
  | FREE =>
      mkState (cameraMode s) (followedPlanetIdx s)
              (ProcessMouseMovement xoffset yoffset (camera s))
              xpos ypos false
              (qPressedLast s) (ePressedLast s) (wasdPressedLast s)
              (orbitYaw s) (orbitPitch s) (orbitDistance s)
  | FOLLOW_PLANET =>
      let sensitivity := 0.15 in
      let yaw := orbitYaw s + xoffset * sensitivity in
      let pitch := orbitPitch s + yoffset * sensitivity in
      let pitch := if Rlt_dec 89 pitch then 89 else pitch in
      let pitch := if Rlt_dec pitch (-89) then -89 else pitch in
      mkState (cameraMode s) (followedPlanetIdx s) (camera s)
              xpos ypos false
              (qPressedLast s) (ePressedLast s) (wasdPressedLast s)
              yaw pitch (orbitDistance s)
  end.

(** [scroll_callback] *)
Definition scroll_callback (xoffset yoffset : R) (s : State) : State :=
  match cameraMode s with
  | FREE =>
      mkState (cameraMode s) (followedPlanetIdx s)
              (ProcessMouseScroll yoffset (camera s))
              (lastX s) (lastY s) (firstMouse s)
              (qPressedLast s) (ePressedLast s) (wasdPressedLast s)
              (orbitYaw s) (orbitPitch s) (orbitDistance s)
  | FOLLOW_PLANET =>
      let dist := orbitDistance s - yoffset * 0.2 in
      let dist := if Rlt_dec dist 0.5 then 0.5 else dist in
      let dist := if Rlt_dec 30 dist then 30 else dist in
      mkState (cameraMode s) (followedPlanetIdx s) (camera s)
              (lastX s) (lastY s) (firstMouse s)
              (qPressedLast s) (ePressedLast s) (wasdPressedLast s)
              (orbitYaw s) (orbitPitch s) dist
  end.

(** What reaches the input code: a turn of the render loop with its key
    states, a cursor position, or a scroll offset. *)
Inductive event : Type :=
| Frame (k : Keys)
| Mouse (xpos ypos : R)
| Scroll (xoffset yoffset : R).

Definition step (s : State) (e : event) : State :=
  match e with
  | Frame k => poll_keys k s
  | Mouse x y => mouse_callback x y s
  | Scroll x y => scroll_callback x y s
  end.

Definition run (es : list event) (s : State) : State := fold_left step es s.

End CameraClass.

(** The ranges that the callbacks keep the orbit camera and the field of
    view in. *)
Definition in_ranges (ZoomMin ZoomMax : R) (s : State) : Prop :=
  -89 <= orbitPitch s <= 89 /\
  0.5 <= orbitDistance s <= 30 /\
  ZoomMin <= Zoom (camera s) <= ZoomMax.

(** The key edges that the render loop acts on: pressed in this turn and not
    in the turn before. *)
Definition previousBody (k : Keys) (s : State) : bool :=
  keyQ k && negb (qPressedLast s).
Definition nextBody (k : Keys) (s : State) : bool :=
  keyE k && negb (ePressedLast s).
Definition moveStart (k : Keys) (s : State) : bool :=
  wasdPressed k && negb (wasdPressedLast s).

(** The successor and the predecessor on the cycle 1..9. *)
Definition next_idx (idx : Z) : Z := if (idx + 1 >? 9)%Z then 1%Z else (idx + 1)%Z.
Definition prev_idx (idx : Z) : Z := if (idx - 1 <? 1)%Z then 9%Z else (idx - 1)%Z.

(** Key states used in the statements below. *)
Definition no_keys : Keys := mkKeys false false false false false false.
Definition only_Q : Keys := mkKeys false false false false true false.
Definition only_E : Keys := mkKeys false false false false false true.
Definition only_W : Keys := mkKeys true false false false false false.

(** One press and release of a key, seen by two turns of the render loop. *)
Definition tap (k : Keys) (s : State) : State := poll_keys no_keys (poll_keys k s).

End Controls.

(* ================================================================= *)
(** ** The asteroid belt *)

Module Asteroids.
Import Glm.

#[local] Open Scope R_scope.

Section Belt.

(** The C library's generator: its hidden state, the effect of one call of
    [rand()] on it, and the constant [RAND_MAX]. *)
Variable rng : Type.
Variable rand : rng -> Z * rng.
Variable RAND_MAX : Z.

(** Code that calls [rand()]: a state monad over the generator's state. *)
Definition M (A : Type) : Type := rng -> A * rng.

Definition ret {A : Type} (a : A) : M A := fun g => (a, g).

Definition bind {A B : Type} (m : M A) (f : A -> M B) : M B :=
  fun g => let '(a, g') := m g in f a g'.

Notation "x <- m ;; k" := (bind m (fun x => k))
  (at level 61, m at next level, right associativity).

(** [static_cast<float>(rand()) / RAND_MAX] *)
Definition rand_unit : M R :=
  r <- rand ;; ret (IZR r / IZR RAND_MAX).

(** The two vectors filled by the loop. *)
Record Belt : Type := mkBelt {
  asteroidPositions : list vec3;
  asteroidScales : list R
}.

(** The body of the loop for index [i]. *)
Definition place_asteroid (asteroidCount i : Z) (b : Belt) : M Belt :=
  let angle := (IZR i / IZR asteroidCount) * two_pi in
  u1 <- rand_unit ;;
  let radius := 5.5 + u1 * 2.5 in
  u2 <- rand_unit ;;
  let height := (u2 - 0.5) * 0.25 in
  let position := Vec3 (cos angle * radius) height (sin angle * radius) in
  u3 <- rand_unit ;;
  let scale := 0.02 + u3 * 0.0175 in
  ret (mkBelt (asteroidPositions b ++ [position]) (asteroidScales b ++ [scale])).

(** [for (int i = 0; i < asteroidCount; ++i)], with [todo] turns left. *)
Fixpoint belt_loop (asteroidCount : Z) (todo : nat) (i : Z) (b : Belt) : M Belt :=
  match todo with
  | O => ret b
  | S todo' =>
      b' <- place_asteroid asteroidCount i b ;;
      belt_loop asteroidCount todo' (i + 1)%Z b'
  end.

(** The asteroid belt of [main], for a count of [asteroidCount]. *)
Definition generate (asteroidCount : Z) : M Belt :=
  belt_loop asteroidCount (Z.to_nat asteroidCount) 0%Z (mkBelt [] []).

(** The value of the [k]-th call of [rand()] made from state [g], counting
    from 0. *)
Fixpoint draw (k : nat) (g : rng) : Z :=
  match k with
  | O => fst (rand g)
  | S k' => draw k' (snd (rand g))
  end.

(** The state after [k] calls of [rand()]. *)
Fixpoint skip (k : nat) (g : rng) : rng :=
  match k with
  | O => g
  | S k' => skip k' (snd (rand g))
  end.

(** The [k]-th value of [rand()], scaled as the loop scales it. *)
Definition unit_draw (k : nat) (g : rng) : R := IZR (draw k g) / IZR RAND_MAX.

(** The angle at which asteroid [i] of [n] is placed. *)
Definition slot_angle (n : Z) (i : nat) : R := IZR (Z.of_nat i) / IZR n * (2 * PI).

(** The three random quantities of asteroid [i]: it uses the calls
    [3i], [3i+1] and [3i+2] of [rand()], in this order. *)
Definition radius_of (g : rng) (i : nat) : R := 5.5 + unit_draw (3 * i) g * 2.5.
Definition height_of (g : rng) (i : nat) : R := (unit_draw (3 * i + 1) g - 0.5) * 0.25.
Definition scale_of (g : rng) (i : nat) : R := 0.02 + unit_draw (3 * i + 2) g * 0.0175.

Definition position_of (n : Z) (g : rng) (i : nat) : vec3 :=
  Vec3 (cos (slot_angle n i) * radius_of g i) (height_of g i)
       (sin (slot_angle n i) * radius_of g i).

End Belt.

(** [const int asteroidCount = 200] *)
Definition asteroidCount : Z := 200.

(** A generator to run the belt with: the linear congruential generator that
    the C standard gives as its sample [rand()], with [RAND_MAX = 32767]. *)
Definition sample_RAND_MAX : Z := 32767.

Definition sample_rand (next : Z) : Z * Z :=
  let next := ((next * 1103515245 + 12345) mod 4294967296)%Z in
  (((next / 65536) mod 32768)%Z, next).

End Asteroids.

(* ================================================================= *)
(** ** Reading the mesh *)

Module Mesh.

(** The index at which [createSphere] stores the vertex of ring [i] and
    column [j]: rings of [sectorCount + 1] vertices, one after the other. *)
Definition vertex_index (sectorCount i j : Z) : Z := i * (sectorCount + 1) + j.

(** The index vector read three by three, as [glDrawElements] reads it with
    [GL_TRIANGLES]. *)
Fixpoint triangles (indices : list Z) : list (Z * Z * Z) :=
  match indices with
  | a :: b :: c :: rest => (a, b, c) :: triangles rest
  | _ => []
  end.

(** The two triangles of the grid cell below ring [i] and right of column
    [j], as triples of vertex indices. *)
Definition upper_triangle (sectorCount i j : Z) : Z * Z * Z :=
  (vertex_index sectorCount i j,
   vertex_index sectorCount (i + 1) j,
   vertex_index sectorCount i (j + 1)).

Definition lower_triangle (sectorCount i j : Z) : Z * Z * Z :=
  (vertex_index sectorCount i (j + 1),
   vertex_index sectorCount (i + 1) j,
   vertex_index sectorCount (i + 1) (j + 1)).

(** The triangles that a sphere of these counts consists of: the upper
    triangle of every cell but those of the first ring, the lower triangle
    of every cell but those of the last ring. *)
Definition grid_triangle (sectorCount stackCount : Z) (t : Z * Z * Z) : Prop :=
  exists i j, 0 <= i < stackCount /\ 0 <= j < sectorCount /\
    ((i <> 0 /\ t = upper_triangle sectorCount i j) \/
     (i <> stackCount - 1 /\ t = lower_triangle sectorCount i j)).

(** The triangles of one cell, of the cells [j .. j+n-1] of a ring, and of
    the rings [i .. i+n-1]. *)
Definition cell_triangles (sectorCount stackCount i j : Z) : list (Z * Z * Z) :=
  (if negb (i =? 0) then [upper_triangle sectorCount i j] else [])
  ++ (if negb (i =? stackCount - 1) then [lower_triangle sectorCount i j] else []).

Fixpoint cells_from (sectorCount stackCount i j : Z) (n : nat) : list (Z * Z * Z) :=
  match n with
  | O => []
  | S n' => cell_triangles sectorCount stackCount i j
            ++ cells_from sectorCount stackCount i (j + 1) n'
  end.

Fixpoint bands_from (sectorCount stackCount i : Z) (n : nat) : list (Z * Z * Z) :=
  match n with
  | O => []
  | S n' => cells_from sectorCount stackCount i 0 (Z.to_nat sectorCount)
            ++ bands_from sectorCount stackCount (i + 1) n'
  end.

(** The eight floats of vertex number [k] of a vertex vector: the stride of
    the [glVertexAttribPointer] calls is [8 * sizeof(float)]. *)
Definition vertex_at (vertices : list R) (k : Z) : list R :=
  firstn 8 (skipn (Z.to_nat (8 * k)) vertices).

End Mesh.

(* ================================================================= *)
(** ** More of glm *)

Module GlmFunctions.
Import Glm.

#[local] Open Scope R_scope.

(** [operator-] and the scaling of a [glm::vec3], and [glm::dot]. *)
Definition vsub (a b : vec3) : vec3 :=
  Vec3 (vx a - vx b) (vy a - vy b) (vz a - vz b).

Definition vscale (k : R) (a : vec3) : vec3 :=
  Vec3 (k * vx a) (k * vy a) (k * vz a).

Definition dot (a b : vec3) : R := vx a * vx b + vy a * vy b + vz a * vz b.

(** [glm::pi<float>()] *)
Definition pi : R := PI.

(** [glm::radians]: degrees times the library's constant for pi / 180. *)
Definition radians (degrees : R) : R :=
  degrees * 0.01745329251994329576923690768489.

(** [glm::clamp]: [min(max(x, minVal), maxVal)]. *)
Definition clamp (x minVal maxVal : R) : R := Rmin (Rmax x minVal) maxVal.

(** [glm::normalize]: the vector times the inverse square root of its dot
    product with itself. *)
Definition normalize (v : vec3) : vec3 := vscale (/ sqrt (dot v v)) v.

End GlmFunctions.

(* ================================================================= *)
(** ** The follow camera *)

Module Follow.
Import Glm GlmFunctions Kinematics Controls.

#[local] Open Scope R_scope.

(** The three fields of [camera] that [updateCameraFollow] assigns. *)
Record View : Type := mkView { Position : vec3; Front : vec3; Up : vec3 }.

Section updateCameraFollow.

(** The library functions that [updateCameraFollow] calls. *)
Variable radians : R -> R.
Variable clamp : R -> R -> R -> R.
Variable normalize : vec3 -> vec3.

(** The distance [r] from the followed body at which the camera is put. *)
Definition follow_distance (w : World) (s : State) : R :=
  orbitDistance s
  + size (planet_at (planets w) (Z.to_nat (followedPlanetIdx s))) * 4.

(** The vector [offset] from the followed body to the camera. *)
Definition follow_offset (w : World) (s : State) : vec3 :=
  let yawRad := radians (orbitYaw s) in
  let pitchRad := radians (clamp (orbitPitch s) (-89) 89) in
  let r := follow_distance w s in
  Vec3 (r * cos pitchRad * sin yawRad)
       (r * sin pitchRad)
       (r * cos pitchRad * cos yawRad).

(** [updateCameraFollow]: it reads the globals of the kinematics and of the
    input code and assigns [camera.Position], [camera.Front], [camera.Up]. *)
Definition updateCameraFollow (w : World) (s : State) : View :=
  let pos := follow_pos w (followedPlanetIdx s) in
  let offset := follow_offset w s in
  let position := vadd pos offset in
  mkView position (normalize (vsub pos position)) (Vec3 0 1 0).

End updateCameraFollow.

End Follow.

(* ================================================================= *)
(** ** The lights around the Sun *)

Module Lights.
Import Glm GlmFunctions.

#[local] Open Scope R_scope.

(** [float sunRingRadius = 0.75f] *)
Definition sunRingRadius : R := 0.75.

(** The position [ringPos] of the extra point light of loop index [i]
    (an [int]; [%] is the remainder of the truncating division). *)
Definition ringPos (i : Z) : vec3 :=
  let theta := two_pi * IZR i / 6 in
  let phi := pi * (if (Z.rem i 2 =? 0)%Z then 0.33 else 0.66) in
  Vec3 (sin phi * cos theta * sunRingRadius)
       (cos phi * sunRingRadius)
       (sin phi * sin theta * sunRingRadius).

(** [for (int i = 0; i < 6; ++i)]: the six positions, in loop order. *)
Definition ring_lights : list vec3 := map ringPos [0; 1; 2; 3; 4; 5]%Z.

End Lights.

(* ================================================================= *)
(** ** Texture formats *)

Module Texture.

(** The three values that [loadTexture] gives [format]. *)
Inductive GLenum : Type := GL_RED | GL_RGB | GL_RGBA.

(** The choice of [format] from the channel count that [stbi_load] reports. *)
Definition texture_format (nrComponents : Z) : GLenum :=
  if nrComponents =? 1 then GL_RED
  else if nrComponents =? 3 then GL_RGB
  else if nrComponents =? 4 then GL_RGBA
  else GL_RGB.

(** The number of bytes per pixel that [glTexImage2D] reads from [data] for
    a format, with the type [GL_UNSIGNED_BYTE]. *)
Definition bytes_per_pixel (format : GLenum) : Z :=
  match format with
  | GL_RED => 1
  | GL_RGB => 3
  | GL_RGBA => 4
  end.

End Texture.

(* ================================================================= *)
(** ** Frame timing *)

Module Timing.

#[local] Open Scope R_scope.

(** The globals [deltaTime] and [lastFrame]. *)
Record Clock : Type := mkClock { deltaTime : R; lastFrame : R }.

(** [float deltaTime = 0.0f; float lastFrame = 0.0f;] *)
Definition clock0 : Clock := mkClock 0 0.

(** The first three statements of a turn of the render loop, for the value
    [currentFrame] of [glfwGetTime()]. *)
Definition tick (c : Clock) (currentFrame : R) : Clock :=
  mkClock (currentFrame - lastFrame c) currentFrame.

(** The clock after the turns at the given times, and the values that
    [deltaTime] took in them. *)
Fixpoint deltas (c : Clock) (times : list R) : list R :=
  match times with
  | [] => []
  | t :: times' => deltaTime (tick c t) :: deltas (tick c t) times'
  end.

End Timing.

(* ================================================================= *)
(** ** Kinds of input *)

Module Input.
Import Controls.

(** An event that GLFW delivers to a callback, as opposed to a turn of the
    render loop. *)
Definition is_callback (e : event) : bool :=
  match e with
  | Frame _ => false
  | Mouse _ _ | Scroll _ _ => true
  end.

(** Q and E down together. *)
Definition both_QE : Keys := mkKeys false false false false true true.

(** One of the four movement keys is down. *)
Definition moving (k : Keys) : Prop :=
  keyW k = true \/ keyA k = true \/ keyS k = true \/ keyD k = true.

(** One of the four movement keys is down in this turn ([k]) and was up in
    the turn before ([k0]): a press of that key. *)
Definition movement_key_pressed (k0 k : Keys) : bool :=
  (keyW k && negb (keyW k0)) || (keyA k && negb (keyA k0))
  || (keyS k && negb (keyS k0)) || (keyD k && negb (keyD k0)).

(** W held with E, and W held with D. *)
Definition keys_WE : Keys := mkKeys true false false false false true.
Definition keys_WD : Keys := mkKeys true false false true false false.

End Input.

(* ================================================================= *)
(** ** Floats with infinities and NaN *)

(** The callbacks receive [double]s and cast them to [float]; a cursor
    position beyond [FLT_MAX] becomes an infinity, and the difference of two
    equal infinities is NaN, which no comparison sees.  [Controls] above
    describes the callbacks while every value stays finite; here the values
    that are not finite are followed as well.  Rounding is still not
    modelled: a finite result is its exact real value. *)

Module Floats.

#[local] Open Scope R_scope.

Inductive float : Type :=
| Fin (r : R)
| PInf
| NInf
| NaN.

(** [FLT_MAX], (2 - 2^-23) * 2^127. *)
Definition FLT_MAX : R := 340282346638528859811704183484516925440.

(** The float for the exact result [r] of an operation on finite floats, or
    of a cast: an infinity beyond [FLT_MAX]. *)
Definition overflow (r : R) : float :=
  if Rlt_dec FLT_MAX r then PInf
  else if Rlt_dec r (- FLT_MAX) then NInf
  else Fin r.

(** [static_cast<float>] of a finite [double]. *)
Definition of_double (x : R) : float := overflow x.

Definition fneg (a : float) : float :=
  match a with
  | Fin r => Fin (- r)
  | PInf => NInf
  | NInf => PInf
  | NaN => NaN
  end.

Definition fadd (a b : float) : float :=
  match a, b with
  | NaN, _ | _, NaN => NaN
  | PInf, NInf | NInf, PInf => NaN
  | PInf, _ | _, PInf => PInf
  | NInf, _ | _, NInf => NInf
  | Fin x, Fin y => overflow (x + y)
  end.

Definition fsub (a b : float) : float := fadd a (fneg b).

(** The product of an infinity and the finite value [x]. *)
Definition scale_inf (positive : bool) (x : R) : float :=
  if Rlt_dec 0 x then (if positive then PInf else NInf)
  else if Rlt_dec x 0 then (if positive then NInf else PInf)
  else NaN.

Definition fmul (a b : float) : float :=
  match a, b with
  | NaN, _ | _, NaN => NaN
  | Fin x, Fin y => overflow (x * y)
  | Fin x, PInf | PInf, Fin x => scale_inf true x
  | Fin x, NInf | NInf, Fin x => scale_inf false x
  | PInf, PInf | NInf, NInf => PInf
  | PInf, NInf | NInf, PInf => NInf
  end.

(** [a < b]; false when either side is NaN. *)
Definition flt (a b : float) : bool :=
  match a, b with
  | NaN, _ | _, NaN => false
  | Fin x, Fin y => if Rlt_dec x y then true else false
  | NInf, NInf | PInf, _ | _, NInf => false
  | NInf, _ | _, PInf => true
  end.

(** [a > b] *)
Definition fgt (a b : float) : bool := flt b a.

(** A finite float with a value between [lo] and [hi]. *)
Definition within (lo hi : R) (a : float) : Prop :=
  match a with
  | Fin r => lo <= r <= hi
  | _ => False
  end.

Definition finite (a : float) : Prop :=
  match a with
  | Fin _ => True
  | _ => False
  end.

(** A value that a [float] variable can hold: a finite one is at most
    [FLT_MAX] in size. *)
Definition is_float (a : float) : Prop :=
  match a with
  | Fin r => - FLT_MAX <= r <= FLT_MAX
  | _ => True
  end.

(** The real value of a finite float (0 for the others). *)
Definition value (a : float) : R :=
  match a with
  | Fin r => r
  | _ => 0
  end.

End Floats.

(* ================================================================= *)
(** ** The callbacks on floats *)

Module FloatControls.
Import Floats Controls.

#[local] Open Scope R_scope.

(** The look angles and the field of view of the [Camera] object. *)
Record Camera : Type := mkCamera { Yaw : float; Pitch : float; Zoom : float }.

(** The globals of [main.cpp] that the input code reads and writes. *)
Record State : Type := mkState {
  cameraMode : CameraMode;
  followedPlanetIdx : Z;
  camera : Camera;
  lastX : float;
  lastY : float;
  firstMouse : bool;
  qPressedLast : bool;
  ePressedLast : bool;
  wasdPressedLast : bool;
  orbitYaw : float;
  orbitPitch : float;
  orbitDistance : float
}.

(** The initialisers of the globals; [camera0] stands for what the
    constructor of [Camera] builds. *)
Definition initial (camera0 : Camera) : State :=
  mkState FOLLOW_PLANET 3 camera0 (Fin (1280 / 2)) (Fin (720 / 2)) true
          false false false (Fin 0) (Fin 20) (Fin 3).

Section CameraClass.

Variables (MouseSensitivity ZoomMin ZoomMax : R).

(** Modelled from the spec: [Camera::ProcessMouseMovement] of
    [learnopengl/camera.h], which is not among the sources.  Mouse movement
    adjusts yaw and pitch; yaw is not clamped, pitch is clamped to
    [-89, 89] degrees. *)
Definition ProcessMouseMovement (xoffset yoffset : float) (c : Camera) : Camera :=
  let yaw := fadd (Yaw c) (fmul xoffset (Fin MouseSensitivity)) in
  let pitch := fadd (Pitch c) (fmul yoffset (Fin MouseSensitivity)) in
  let pitch := if fgt pitch (Fin 89) then Fin 89 else pitch in
  let pitch := if flt pitch (Fin (-89)) then Fin (-89) else pitch in
  mkCamera yaw pitch (Zoom c).

(** Modelled from the spec: [Camera::ProcessMouseScroll] of
    [learnopengl/camera.h], which is not among the sources.  Scroll adjusts
    the field of view, which is clamped to a fixed range. *)
Definition ProcessMouseScroll (yoffset : float) (c : Camera) : Camera :=
  let zoom := fsub (Zoom c) yoffset in
  let zoom := if flt zoom (Fin ZoomMin) then Fin ZoomMin else zoom in
  let zoom := if fgt zoom (Fin ZoomMax) then Fin ZoomMax else zoom in
  mkCamera (Yaw c) (Pitch c) zoom.

(** "Planet switching" and the change to the free camera, once per turn of
    the render loop. *)
Definition poll_keys (k : Keys) (s : State) : State :=
  let wasd := wasdPressed k in
  let qPressed := keyQ k in
  let ePressed := keyE k in
  let idx := followedPlanetIdx s in
  let mode := cameraMode s in
  let '(idx, mode) :=
    if qPressed && negb (qPressedLast s)
    then let idx := (idx - 1)%Z in
         ((if (idx <? 1)%Z then 9%Z else idx), FOLLOW_PLANET)
    else (idx, mode) in
  let '(idx, mode) :=
    if ePressed && negb (ePressedLast s)
    then let idx := (idx + 1)%Z in
         ((if (idx >? 9)%Z then 1%Z else idx), FOLLOW_PLANET)
    else (idx, mode) in
  let mode :=
    if mode_eqb mode FOLLOW_PLANET && wasd && negb (wasdPressedLast s)
    then FREE else mode in
  mkState mode idx (camera s) (lastX s) (lastY s) (firstMouse s)
          qPressed ePressed wasd
          (orbitYaw s) (orbitPitch s) (orbitDistance s).

(** [mouse_callback], for the finite [double]s [xposIn] and [yposIn]. *)
Definition mouse_callback (xposIn yposIn : R) (s : State) : State :=
  let xpos := of_double xposIn in
  let ypos := of_double yposIn in
  let '(lx, ly) := if firstMouse s then (xpos, ypos) else (lastX s, lastY s) in
  let xoffset := fsub xpos lx in
  let yoffset := fsub ly ypos in
  match cameraMode s with
  | FREE =>
      mkState (cameraMode s) (followedPlanetIdx s)
              (ProcessMouseMovement xoffset yoffset (camera s))
              xpos ypos false
              (qPressedLast s) (ePressedLast s) (wasdPressedLast s)
              (orbitYaw s) (orbitPitch s) (orbitDistance s)
  | FOLLOW_PLANET =>
      let sensitivity := Fin 0.15 in
      let yaw := fadd (orbitYaw s) (fmul xoffset sensitivity) in
      let pitch := fadd (orbitPitch s) (fmul yoffset sensitivity) in
      let pitch := if fgt pitch (Fin 89) then Fin 89 else pitch in
      let pitch := if flt pitch (Fin (-89)) then Fin (-89) else pitch in
      mkState (cameraMode s) (followedPlanetIdx s) (camera s)
              xpos ypos false
              (qPressedLast s) (ePressedLast s) (wasdPressedLast s)
              yaw pitch (orbitDistance s)
  end.

(** [scroll_callback], for the finite [double]s [xoffset] and [yoffset]. *)
Definition scroll_callback (xoffset yoffset : R) (s : State) : State :=
  match cameraMode s with
  | FREE =>
      mkState (cameraMode s) (followedPlanetIdx s)
              (ProcessMouseScroll (of_double yoffset) (camera s))
              (lastX s) (lastY s) (firstMouse s)
              (qPressedLast s) (ePressedLast s) (wasdPressedLast s)
              (orbitYaw s) (orbitPitch s) (orbitDistance s)
  | FOLLOW_PLANET =>
      let dist := fsub (orbitDistance s) (fmul (of_double yoffset) (Fin 0.2)) in
      let dist := if flt dist (Fin 0.5) then Fin 0.5 else dist in
      let dist := if fgt dist (Fin 30) then Fin 30 else dist in
      mkState (cameraMode s) (followedPlanetIdx s) (camera s)
              (lastX s) (lastY s) (firstMouse s)
              (qPressedLast s) (ePressedLast s) (wasdPressedLast s)
              (orbitYaw s) (orbitPitch s) dist
  end.

Definition step (s : State) (e : event) : State :=
  match e with
  | Frame k => poll_keys k s
  | Mouse x y => mouse_callback x y s
  | Scroll x y => scroll_callback x y s
  end.

Definition run (es : list event) (s : State) : State := fold_left step es s.

(** The ranges that the callbacks are meant to keep. *)
Definition in_ranges (s : State) : Prop :=
  within (-89) 89 (orbitPitch s) /\
  within 0.5 30 (orbitDistance s) /\
  within ZoomMin ZoomMax (Zoom (camera s)).

(** What the callbacks keep when the cursor stays finite: the three
    ranges, and a finite [lastY]. *)
Definition kept (s : State) : Prop := in_ranges s /\ finite (lastY s).

End CameraClass.

(** The cursor position 10^39, which is beyond [FLT_MAX]. *)
Definition far_away : R := 1000000000000000000000000000000000000000.

(** A cursor event whose vertical position is a finite float: turns of the
    render loop and scroll events are not restricted. *)
Definition finite_cursor (e : event) : Prop :=
  match e with
  | Mouse _ y => - FLT_MAX <= y <= FLT_MAX
  | _ => True
  end.

(** Half of [FLT_MAX]: the difference of two cursor positions of at most
    this size is a finite float. *)
Definition cursor_bound : R := FLT_MAX / 2.

(** A cursor or scroll event (no turn of the render loop) whose horizontal
    cursor position is at most [bound] in size. *)
Definition cursor_within (bound : R) (e : event) : Prop :=
  match e with
  | Frame _ => False
  | Mouse x _ => - bound <= x <= bound
  | Scroll _ _ => True
  end.

End FloatControls.

(* ================================================================= *)
(** * Properties *)

(** ** Facts about 32-bit unsigned arithmetic *)

Module UnsignedFacts.
Import Unsigned.

Lemma wrap32_range z : 0 <= wrap32 z < 4294967296.
Proof. unfold wrap32. apply Z.mod_pos_bound. lia. Qed.

Lemma wrap32_is_uint z : is_uint (wrap32 z).
Proof. unfold is_uint, UINT_MAX. pose proof (wrap32_range z). lia. Qed.

Lemma wrap32_small z : 0 <= z <= UINT_MAX -> wrap32 z = z.
Proof. unfold wrap32, UINT_MAX. intros H. apply Z.mod_small. lia. Qed.

Lemma wrap32_le z : 0 <= z -> wrap32 z <= z.
Proof. unfold wrap32. intros H. apply Z.mod_le; lia. Qed.

Lemma wrap32_add_l a b : wrap32 (wrap32 a + b) = wrap32 (a + b).
Proof. unfold wrap32. apply Zplus_mod_idemp_l. Qed.

Lemma wrap32_mul_r a b : wrap32 (a * wrap32 b) = wrap32 (a * b).
Proof. unfold wrap32. apply Zmult_mod_idemp_r. Qed.

Lemma uincr_small z : 0 <= z < UINT_MAX -> uincr z = z + 1.
Proof. unfold uincr, uadd. intros H. apply wrap32_small. lia. Qed.

Lemma uincr_is_uint z : is_uint (uincr z).
Proof. apply wrap32_is_uint. Qed.

Lemma uincr_wrap32 z : uincr (wrap32 z) = wrap32 (z + 1).
Proof. unfold uincr, uadd. apply wrap32_add_l. Qed.

End UnsignedFacts.

(** ** The loops of [createSphere] *)

Module SphereLoops.
Import Unsigned UnsignedFacts Sphere.

Section Loops.

Variable radius : R.
Variables sectorCount stackCount : Z.
Hypothesis sector_uint : is_uint sectorCount.
Hypothesis stack_uint : is_uint stackCount.

#[local] Abbreviation vertex := (vertex radius sectorCount stackCount).
#[local] Abbreviation sector_loop := (sector_loop radius sectorCount stackCount).
#[local] Abbreviation stack_loop := (stack_loop radius sectorCount stackCount).
#[local] Abbreviation quad := (quad stackCount).
#[local] Abbreviation quad_loop := (quad_loop sectorCount stackCount).
#[local] Abbreviation ring_loop := (ring_loop sectorCount stackCount).
#[local] Abbreviation row_from := (row_from radius sectorCount stackCount).
#[local] Abbreviation rows_from := (rows_from radius sectorCount stackCount).
#[local] Abbreviation quads_from := (quads_from sectorCount stackCount).
#[local] Abbreviation rings_from := (rings_from sectorCount stackCount).
#[local] Abbreviation quad_size := (quad_size stackCount).
#[local] Abbreviation in_mesh := (in_mesh sectorCount stackCount).

(** *** The vertex loops *)

(** With [sectorCount < UINT_MAX] the inner vertex loop is left after
    [sectorCount + 1 - j] turns, and needs one more unit of fuel to see its
    test fail. *)
Lemma sector_loop_run fuel : forall i j vertices,
  sectorCount < UINT_MAX -> 0 <= j <= sectorCount + 1 ->
  sector_loop fuel i j vertices =
    if (Z.to_nat (sectorCount + 1 - j) <? fuel)%nat
    then Some (vertices ++ row_from i j (Z.to_nat (sectorCount + 1 - j)))
    else None.
Proof.
  induction fuel as [|fuel IH]; intros i j vertices Hsc Hj.
  - reflexivity.
  - cbn [Sphere.sector_loop]. destruct (Z.leb_spec j sectorCount) as [Hle|Hgt].
    + rewrite uincr_small by (red in sector_uint; lia).
      rewrite IH by lia.
      replace (Z.to_nat (sectorCount + 1 - j))
        with (S (Z.to_nat (sectorCount + 1 - (j + 1)))) by lia.
      cbn [Sphere.row_from]. rewrite <- app_assoc.
      change (S ?n <? S ?m)%nat with (n <? m)%nat. reflexivity.
    + replace (sectorCount + 1 - j) with 0 by lia.
      cbn. now rewrite app_nil_r.
Qed.

(** With [sectorCount = UINT_MAX] the test [j <= sectorCount] never fails. *)
Lemma sector_loop_diverges fuel : forall i j vertices,
  sectorCount = UINT_MAX -> is_uint j ->
  sector_loop fuel i j vertices = None.
Proof.
  induction fuel as [|fuel IH]; intros i j vertices Hsc Hj.
  - reflexivity.
  - cbn [Sphere.sector_loop].
    destruct (Z.leb_spec j sectorCount) as [Hle|Hgt].
    + apply IH; [assumption | apply uincr_is_uint].
    + red in Hj. lia.
Qed.

Lemma stack_loop_diverges_sector fuel vertices :
  sectorCount = UINT_MAX -> stack_loop fuel 0 vertices = None.
Proof.
  intros Hsc. destruct fuel as [|fuel]; [reflexivity|].
  cbn [Sphere.stack_loop].
  destruct (Z.leb_spec 0 stackCount) as [_|Hgt]; [|red in stack_uint; lia].
  rewrite sector_loop_diverges; [reflexivity | assumption |].
  red. unfold UINT_MAX. lia.
Qed.

Lemma stack_loop_diverges fuel : forall i vertices,
  stackCount = UINT_MAX -> is_uint i ->
  stack_loop fuel i vertices = None.
Proof.
  induction fuel as [|fuel IH]; intros i vertices Hst Hi.
  - reflexivity.
  - cbn [Sphere.stack_loop].
    destruct (Z.leb_spec i stackCount) as [Hle|Hgt]; [|red in Hi; lia].
    destruct (sector_loop fuel i 0 vertices); [|reflexivity].
    apply IH; [assumption | apply uincr_is_uint].
Qed.

(** What the outer vertex loop returns, when it returns. *)
Lemma stack_loop_returns fuel : forall i vertices vertices',
  sectorCount < UINT_MAX -> stackCount < UINT_MAX ->
  0 <= i <= stackCount + 1 ->
  stack_loop fuel i vertices = Some vertices' ->
  vertices' = vertices ++ rows_from i (Z.to_nat (stackCount + 1 - i)).
Proof.
  induction fuel as [|fuel IH]; intros i vertices vertices' Hsc Hst Hi Hrun.
  - discriminate.
  - cbn [Sphere.stack_loop] in Hrun.
    destruct (Z.leb_spec i stackCount) as [Hle|Hgt].
    + rewrite sector_loop_run in Hrun by (red in sector_uint; lia).
      destruct (_ <? fuel)%nat; [|discriminate].
      rewrite uincr_small in Hrun by lia.
      apply IH in Hrun; [|lia..]. subst vertices'.
      replace (Z.to_nat (stackCount + 1 - i))
        with (S (Z.to_nat (stackCount + 1 - (i + 1)))) by lia.
      cbn [Sphere.rows_from]. rewrite Z.sub_0_r. now rewrite <- !app_assoc.
    + injection Hrun as <-.
      replace (stackCount + 1 - i) with 0 by lia.
      cbn. now rewrite app_nil_r.
Qed.

(** The outer vertex loop returns once the fuel covers its own turns and
    those of one inner loop. *)
Lemma stack_loop_terminates fuel : forall i vertices,
  sectorCount < UINT_MAX -> stackCount < UINT_MAX ->
  0 <= i <= stackCount + 1 ->
  (stackCount + 1 - i) + (sectorCount + 1) < Z.of_nat fuel ->
  exists vertices', stack_loop fuel i vertices = Some vertices'.
Proof.
  induction fuel as [|fuel IH]; intros i vertices Hsc Hst Hi Hfuel.
  - red in sector_uint. lia.
  - cbn [Sphere.stack_loop].
    destruct (Z.leb_spec i stackCount) as [Hle|Hgt]; [|eauto].
    rewrite sector_loop_run by (red in sector_uint; lia).
    destruct (Nat.ltb_spec (Z.to_nat (sectorCount + 1 - 0)) fuel) as [_|Hno];
      [|red in sector_uint; lia].
    rewrite uincr_small by lia.
    apply IH; lia.
Qed.

(** *** The index loops *)

(** The inner index loop always ends: [j < sectorCount] leaves room for
    [++j].  Its running indices are the wrapped values of
    [i * (sectorCount + 1) + j] and [(i + 1) * (sectorCount + 1) + j]. *)
Lemma quad_loop_run fuel : forall i j indices,
  0 <= j <= sectorCount ->
  quad_loop fuel i j (wrap32 (i * (sectorCount + 1) + j))
            (wrap32 ((i + 1) * (sectorCount + 1) + j)) indices =
    if (Z.to_nat (sectorCount - j) <? fuel)%nat
    then Some (indices ++ quads_from i j (Z.to_nat (sectorCount - j)))
    else None.
Proof.
  induction fuel as [|fuel IH]; intros i j indices Hj.
  - reflexivity.
  - cbn [Sphere.quad_loop]. destruct (Z.ltb_spec j sectorCount) as [Hlt|Hge].
    + rewrite uincr_small by (red in sector_uint; lia).
      rewrite !uincr_wrap32, <- !Z.add_assoc.
      rewrite IH by lia.
      replace (Z.to_nat (sectorCount - j))
        with (S (Z.to_nat (sectorCount - (j + 1)))) by lia.
      cbn [Sphere.quads_from]. rewrite <- app_assoc.
      change (S ?n <? S ?m)%nat with (n <? m)%nat. reflexivity.
    + replace (sectorCount - j) with 0 by lia.
      cbn. now rewrite app_nil_r.
Qed.

(** The initial values of [k1] and [k2] in ring [i]. *)
Lemma ring_k1 i : umul i (uadd sectorCount 1) = wrap32 (i * (sectorCount + 1) + 0).
Proof. unfold umul, uadd. now rewrite wrap32_mul_r, Z.add_0_r. Qed.

Lemma ring_k2 i :
  uadd (uadd (umul i (uadd sectorCount 1)) sectorCount) 1
  = wrap32 ((i + 1) * (sectorCount + 1) + 0).
Proof.
  unfold umul, uadd.
  rewrite wrap32_mul_r, wrap32_add_l, <- Z.add_assoc, wrap32_add_l.
  f_equal. ring.
Qed.

Lemma ring_loop_returns fuel : forall i indices indices',
  0 <= i <= stackCount ->
  ring_loop fuel i indices = Some indices' ->
  indices' = indices ++ rings_from i (Z.to_nat (stackCount - i)).
Proof.
  induction fuel as [|fuel IH]; intros i indices indices' Hi Hrun.
  - discriminate.
  - cbn [Sphere.ring_loop] in Hrun.
    destruct (Z.ltb_spec i stackCount) as [Hlt|Hge].
    + cbv zeta in Hrun. rewrite ring_k2, ring_k1 in Hrun.
      rewrite quad_loop_run in Hrun by (red in sector_uint; lia).
      destruct (_ <? fuel)%nat; [|discriminate].
      rewrite uincr_small in Hrun by (red in stack_uint; lia).
      apply IH in Hrun; [|lia]. subst indices'.
      replace (Z.to_nat (stackCount - i))
        with (S (Z.to_nat (stackCount - (i + 1)))) by lia.
      cbn [Sphere.rings_from]. rewrite Z.sub_0_r. now rewrite <- !app_assoc.
    + injection Hrun as <-.
      replace (stackCount - i) with 0 by lia.
      cbn. now rewrite app_nil_r.
Qed.

Lemma ring_loop_terminates fuel : forall i indices,
  0 <= i <= stackCount ->
  (stackCount - i) + sectorCount < Z.of_nat fuel ->
  exists indices', ring_loop fuel i indices = Some indices'.
Proof.
  induction fuel as [|fuel IH]; intros i indices Hi Hfuel.
  - red in sector_uint. lia.
  - cbn [Sphere.ring_loop].
    destruct (Z.ltb_spec i stackCount) as [Hlt|Hge]; [|eauto].
    cbv zeta. rewrite ring_k2, ring_k1.
    rewrite quad_loop_run by (red in sector_uint; lia).
    destruct (Nat.ltb_spec (Z.to_nat (sectorCount - 0)) fuel) as [_|Hno];
      [|red in sector_uint; lia].
    rewrite uincr_small by (red in stack_uint; lia).
    apply IH; lia.
Qed.

(** *** The whole function *)

Lemma createSphere_returns fuel vertices indices vertices' indices' :
  createSphere radius sectorCount stackCount fuel vertices indices
    = Some (vertices', indices') ->
  sectorCount < UINT_MAX /\ stackCount < UINT_MAX /\
  vertices' = vertices ++ sphere_vertices radius sectorCount stackCount /\
  indices' = indices ++ sphere_indices sectorCount stackCount.
Proof.
  unfold createSphere. intros Hrun.
  destruct (stack_loop fuel 0 vertices) as [v|] eqn:Hv; [|discriminate].
  destruct (ring_loop fuel 0 indices) as [x|] eqn:Hx; [|discriminate].
  injection Hrun as <- <-.
  assert (Hsc : sectorCount < UINT_MAX).
  { destruct (Z.eq_dec sectorCount UINT_MAX) as [E|N].
    - now rewrite stack_loop_diverges_sector in Hv.
    - red in sector_uint. lia. }
  assert (Hst : stackCount < UINT_MAX).
  { destruct (Z.eq_dec stackCount UINT_MAX) as [E|N].
    - rewrite stack_loop_diverges in Hv; [discriminate | assumption |].
      red. unfold UINT_MAX. lia.
    - red in stack_uint. lia. }
  apply stack_loop_returns in Hv; [|assumption || (red in stack_uint; lia)..].
  apply ring_loop_returns in Hx; [|red in stack_uint; lia].
  rewrite Z.sub_0_r in Hv, Hx. auto.
Qed.

Lemma createSphere_terminates fuel vertices indices :
  sectorCount < UINT_MAX -> stackCount < UINT_MAX ->
  stackCount + sectorCount + 2 < Z.of_nat fuel ->
  createSphere radius sectorCount stackCount fuel vertices indices
    = Some (vertices ++ sphere_vertices radius sectorCount stackCount,
            indices ++ sphere_indices sectorCount stackCount).
Proof.
  intros Hsc Hst Hfuel.
  destruct (stack_loop_terminates fuel 0 vertices) as [v Hv];
    [assumption | assumption | red in stack_uint; lia | lia |].
  destruct (ring_loop_terminates fuel 0 indices) as [x Hx];
    [red in stack_uint; lia | lia |].
  destruct (createSphere radius sectorCount stackCount fuel vertices indices)
    as [[v' x']|] eqn:Hrun.
  - apply createSphere_returns in Hrun. destruct Hrun as (_ & _ & -> & ->).
    reflexivity.
  - unfold createSphere in Hrun. now rewrite Hv, Hx in Hrun.
Qed.

(** *** The accumulators are only appended to *)

Lemma sector_loop_frame fuel : forall i j prior vertices,
  sector_loop fuel i j (prior ++ vertices)
  = option_map (app prior) (sector_loop fuel i j vertices).
Proof.
  induction fuel as [|fuel IH]; intros i j prior vertices; [reflexivity|].
  cbn [Sphere.sector_loop]. destruct (j <=? sectorCount); [|reflexivity].
  rewrite <- app_assoc. apply IH.
Qed.

Lemma stack_loop_frame fuel : forall i prior vertices,
  stack_loop fuel i (prior ++ vertices)
  = option_map (app prior) (stack_loop fuel i vertices).
Proof.
  induction fuel as [|fuel IH]; intros i prior vertices; [reflexivity|].
  cbn [Sphere.stack_loop]. destruct (i <=? stackCount); [|reflexivity].
  rewrite sector_loop_frame.
  destruct (sector_loop fuel i 0 vertices); cbn [option_map]; [apply IH | reflexivity].
Qed.

Lemma quad_loop_frame fuel : forall i j k1 k2 prior indices,
  quad_loop fuel i j k1 k2 (prior ++ indices)
  = option_map (app prior) (quad_loop fuel i j k1 k2 indices).
Proof.
  induction fuel as [|fuel IH]; intros i j k1 k2 prior indices; [reflexivity|].
  cbn [Sphere.quad_loop]. destruct (j <? sectorCount); [|reflexivity].
  rewrite <- app_assoc. apply IH.
Qed.

Lemma ring_loop_frame fuel : forall i prior indices,
  ring_loop fuel i (prior ++ indices)
  = option_map (app prior) (ring_loop fuel i indices).
Proof.
  induction fuel as [|fuel IH]; intros i prior indices; [reflexivity|].
  cbn [Sphere.ring_loop]. destruct (i <? stackCount); [|reflexivity].
  cbv zeta. rewrite quad_loop_frame.
  destruct (quad_loop fuel i 0 _ _ indices); cbn [option_map]; [apply IH | reflexivity].
Qed.

Lemma createSphere_frame fuel vertices indices :
  createSphere radius sectorCount stackCount fuel vertices indices
  = match createSphere radius sectorCount stackCount fuel [] [] with
    | Some (vertices', indices') =>
        Some (vertices ++ vertices', indices ++ indices')
    | None => None
    end.
Proof.
  unfold createSphere.
  pose proof (stack_loop_frame fuel 0 vertices []) as Hv.
  pose proof (ring_loop_frame fuel 0 indices []) as Hx.
  rewrite app_nil_r in Hv, Hx. rewrite Hv, Hx.
  destruct (stack_loop fuel 0 []); cbn [option_map]; [|reflexivity].
  destruct (ring_loop fuel 0 []); reflexivity.
Qed.

(** *** Sizes *)

Lemma vertex_length i j : length (vertex i j) = 8%nat.
Proof. reflexivity. Qed.

Lemma row_from_length n : forall i j,
  Z.of_nat (length (row_from i j n)) = 8 * Z.of_nat n.
Proof.
  induction n as [|n IH]; intros i j; [reflexivity|].
  cbn [Sphere.row_from]. rewrite length_app, vertex_length, Nat2Z.inj_add, IH.
  lia.
Qed.

Lemma rows_from_length n : forall i,
  Z.of_nat (length (rows_from i n)) = 8 * (Z.of_nat n * (sectorCount + 1)).
Proof.
  induction n as [|n IH]; intros i; [reflexivity|].
  cbn [Sphere.rows_from]. rewrite length_app, Nat2Z.inj_add, IH, row_from_length.
  red in sector_uint. lia.
Qed.

Lemma sphere_vertices_length :
  Z.of_nat (length (sphere_vertices radius sectorCount stackCount))
  = 8 * ((stackCount + 1) * (sectorCount + 1)).
Proof.
  unfold sphere_vertices. rewrite rows_from_length.
  red in stack_uint. lia.
Qed.

Lemma quad_length i k1 k2 : Z.of_nat (length (quad i k1 k2)) = quad_size i.
Proof.
  unfold Sphere.quad, Sphere.quad_size.
  destruct (i =? 0), (i =? usub stackCount 1); reflexivity.
Qed.

Lemma quads_from_length n : forall i j,
  Z.of_nat (length (quads_from i j n)) = Z.of_nat n * quad_size i.
Proof.
  induction n as [|n IH]; intros i j; [reflexivity|].
  cbn [Sphere.quads_from]. rewrite length_app, Nat2Z.inj_add, IH, quad_length.
  lia.
Qed.

Lemma usub_stack_1 : 1 <= stackCount -> usub stackCount 1 = stackCount - 1.
Proof. intros H. apply wrap32_small. red in stack_uint. lia. Qed.

Lemma rings_from_length n : forall i,
  1 <= stackCount -> 0 <= i -> i + Z.of_nat n <= stackCount ->
  Z.of_nat (length (rings_from i n))
  = 3 * sectorCount
    * (2 * Z.of_nat n
       - (if (i =? 0) && (0 <? Z.of_nat n) then 1 else 0)
       - (if (i + Z.of_nat n =? stackCount) && (0 <? Z.of_nat n) then 1 else 0)).
Proof.
  induction n as [|n IH]; intros i Hst Hi Hn.
  - cbn. rewrite !andb_false_r. lia.
  - cbn [Sphere.rings_from].
    rewrite length_app, Nat2Z.inj_add, IH, quads_from_length by lia.
    unfold Sphere.quad_size. rewrite usub_stack_1 by assumption.
    rewrite Z2Nat.id by (red in sector_uint; lia).
    destruct (Z.eqb_spec i 0), (Z.eqb_spec i (stackCount - 1)),
      (Z.eqb_spec (i + 1) 0), (Z.ltb_spec 0 (Z.of_nat n)),
      (Z.ltb_spec 0 (Z.of_nat (S n))),
      (Z.eqb_spec (i + 1 + Z.of_nat n) stackCount),
      (Z.eqb_spec (i + Z.of_nat (S n)) stackCount);
      cbn [andb]; try lia.
Qed.

Lemma sphere_indices_length :
  1 <= stackCount ->
  Z.of_nat (length (sphere_indices sectorCount stackCount))
  = 3 * (2 * sectorCount * (stackCount - 1)).
Proof.
  intros Hst. unfold sphere_indices.
  rewrite rings_from_length by lia.
  rewrite Z2Nat.id by lia.
  destruct (Z.eqb_spec 0 0), (Z.ltb_spec 0 stackCount),
    (Z.eqb_spec (0 + stackCount) stackCount); cbn [andb]; lia.
Qed.

(** *** Index bounds *)

Lemma wrap32_in_mesh z :
  0 <= z < (stackCount + 1) * (sectorCount + 1) -> in_mesh (wrap32 z).
Proof.
  intros Hz. red. pose proof (wrap32_range z). pose proof (wrap32_le z). lia.
Qed.

Lemma quad_in_mesh i j :
  0 <= i < stackCount -> 0 <= j < sectorCount ->
  Forall in_mesh
    (quad i (wrap32 (i * (sectorCount + 1) + j))
            (wrap32 ((i + 1) * (sectorCount + 1) + j))).
Proof.
  intros Hi Hj. unfold Sphere.quad, uadd. rewrite !wrap32_add_l.
  assert (H1 : 0 <= i * (sectorCount + 1) + j + 1
               < (stackCount + 1) * (sectorCount + 1)) by nia.
  assert (H2 : 0 <= (i + 1) * (sectorCount + 1) + j + 1
               < (stackCount + 1) * (sectorCount + 1)) by nia.
  assert (H0 : 0 <= i * (sectorCount + 1)) by nia.
  apply Forall_app; split;
    [destruct (negb (i =? 0)) | destruct (negb (i =? usub stackCount 1))];
    repeat (apply Forall_cons; [apply wrap32_in_mesh; lia|]);
    apply Forall_nil.
Qed.

Lemma quads_from_in_mesh n : forall i j,
  0 <= i < stackCount -> 0 <= j -> j + Z.of_nat n <= sectorCount ->
  Forall in_mesh (quads_from i j n).
Proof.
  induction n as [|n IH]; intros i j Hi Hj Hn; [constructor|].
  cbn [Sphere.quads_from]. apply Forall_app; split.
  - apply quad_in_mesh; lia.
  - apply IH; lia.
Qed.

Lemma rings_from_in_mesh n : forall i,
  0 <= i -> i + Z.of_nat n <= stackCount ->
  Forall in_mesh (rings_from i n).
Proof.
  induction n as [|n IH]; intros i Hi Hn; [constructor|].
  cbn [Sphere.rings_from]. apply Forall_app; split.
  - apply quads_from_in_mesh; red in sector_uint; lia.
  - apply IH; lia.
Qed.

Lemma sphere_indices_in_mesh :
  Forall in_mesh (sphere_indices sectorCount stackCount).
Proof.
  unfold sphere_indices. apply rings_from_in_mesh; red in stack_uint; lia.
Qed.

End Loops.

End SphereLoops.

(** ** The sphere mesh generator: statements *)

Module SphereTheorems.
Import Unsigned UnsignedFacts Sphere SphereLoops.

(** With no sectors or no stacks the index loops push nothing. *)
Lemma rings_from_degenerate sectorCount stackCount n : forall i,
  sectorCount = 0 -> rings_from sectorCount stackCount i n = [].
Proof.
  induction n as [|n IH]; intros i Hsc; [reflexivity|].
  cbn [rings_from]. rewrite IH by assumption. now subst sectorCount.
Qed.

Lemma sphere_indices_degenerate sectorCount stackCount :
  sectorCount = 0 \/ stackCount = 0 ->
  sphere_indices sectorCount stackCount = [].
Proof.
  unfold sphere_indices. intros [H|H].
  - now apply rings_from_degenerate.
  - now subst stackCount.
Qed.

(** At a count of [UINT_MAX] a vertex loop never sees its test fail, and the
    function does not return, whatever the fuel. *)
Lemma createSphere_diverges radius sectorCount stackCount fuel vertices indices :
  is_uint sectorCount -> is_uint stackCount ->
  sectorCount = UINT_MAX \/ stackCount = UINT_MAX ->
  createSphere radius sectorCount stackCount fuel vertices indices = None.
Proof.
  intros Hsc Hst Hmax.
  destruct (createSphere radius sectorCount stackCount fuel vertices indices)
    as [[v x]|] eqn:Hrun; [|reflexivity].
  apply createSphere_returns in Hrun; [|assumption..]. lia.
Qed.

(** The index loops on a sphere of one sector and two stacks, and on one of
    three sectors and three stacks. *)
Example ring_loop_1_2 : ring_loop 1 2 6 0 [] = Some [1; 2; 3; 2; 4; 3].
Proof. reflexivity. Qed.

Example ring_loop_3_3 :
  ring_loop 3 3 10 0 []
  = Some [1; 4; 5; 2; 5; 6; 3; 6; 7;
          4; 8; 5; 5; 8; 9; 5; 9; 6; 6; 9; 10; 6; 10; 7; 7; 10; 11;
          8; 12; 9; 9; 13; 10; 10; 14; 11].
Proof. reflexivity. Qed.

(** Too little fuel is reported as such. *)
Example ring_loop_out_of_fuel : ring_loop 3 3 4 0 [] = None.
Proof. reflexivity. Qed.

(** C1, as stated, fails: a count of [UINT_MAX] is at least 3, and there the
    test [j <= sectorCount] of the vertex loop can never fail, so
    [createSphere] produces nothing, whatever the fuel. *)
Lemma createSphere_counts_fail_at_UINT_MAX :
  ~ (forall (radius : R) (sectorCount stackCount : Z),
        (0 < radius)%R -> is_uint sectorCount -> is_uint stackCount ->
        3 <= sectorCount -> 3 <= stackCount ->
        exists fuel vertices indices,
          createSphere radius sectorCount stackCount fuel [] []
            = Some (vertices, indices) /\
          Z.of_nat (length vertices)
            = 8 * ((stackCount + 1) * (sectorCount + 1)) /\
          Z.of_nat (length indices)
            = 3 * (2 * sectorCount * (stackCount - 1))).
Proof.
  intros Hclaim.
  assert (Umax : is_uint 4294967295) by (unfold is_uint, UINT_MAX; lia).
  assert (U3 : is_uint 3) by (unfold is_uint, UINT_MAX; lia).
  destruct (Hclaim 1%R 4294967295 3 ltac:(lra) Umax U3 ltac:(lia) ltac:(lia))
    as (fuel & vertices & indices & Hrun & _).
  rewrite createSphere_diverges in Hrun;
    [discriminate | exact Umax | exact U3 | left; reflexivity].
Qed.

(** C1, amended.  For every radius > 0 and all sectorCount, stackCount
    from 3 up to, but not including, [UINT_MAX], [createSphere], called on
    empty vectors, returns (with any fuel above
    stackCount + sectorCount + 2) and produces exactly
    (stackCount+1)*(sectorCount+1) vertices of eight floats and exactly
    2*sectorCount*(stackCount-1) triangles of three indices; no fuel makes
    it return anything else.  The triangle count is reduced because a quad
    of the first or of the last stack row pushes one triangle and a quad of
    any other row pushes two. *)
Theorem createSphere_counts (radius : R) (sectorCount stackCount : Z) :
  (0 < radius)%R ->
  3 <= sectorCount < UINT_MAX -> 3 <= stackCount < UINT_MAX ->
  (forall fuel, stackCount + sectorCount + 2 < Z.of_nat fuel ->
      exists vertices indices,
        createSphere radius sectorCount stackCount fuel [] []
          = Some (vertices, indices) /\
        Z.of_nat (length vertices)
          = 8 * ((stackCount + 1) * (sectorCount + 1)) /\
        Z.of_nat (length indices)
          = 3 * (2 * sectorCount * (stackCount - 1)))
  /\ (forall fuel vertices indices,
      createSphere radius sectorCount stackCount fuel [] []
        = Some (vertices, indices) ->
      Z.of_nat (length vertices) = 8 * ((stackCount + 1) * (sectorCount + 1)) /\
      Z.of_nat (length indices) = 3 * (2 * sectorCount * (stackCount - 1)))
  /\ (forall i k1 k2, 0 <= i < stackCount ->
      Z.of_nat (length (quad stackCount i k1 k2))
      = 3 * (if (i =? 0) || (i =? stackCount - 1) then 1 else 2)).
Proof.
  intros _ Hsc3 Hst3.
  assert (Hsc : is_uint sectorCount) by (unfold is_uint; lia).
  assert (Hst : is_uint stackCount) by (unfold is_uint; lia).
  assert (Hcount : forall fuel vertices indices,
    createSphere radius sectorCount stackCount fuel [] []
      = Some (vertices, indices) ->
    Z.of_nat (length vertices) = 8 * ((stackCount + 1) * (sectorCount + 1)) /\
    Z.of_nat (length indices) = 3 * (2 * sectorCount * (stackCount - 1))).
  { intros fuel vertices indices Hrun.
    apply createSphere_returns in Hrun; [|assumption..].
    destruct Hrun as (_ & _ & -> & ->). cbn [app]. split.
    - now apply sphere_vertices_length.
    - apply sphere_indices_length; (assumption || lia). }
  split; [|split; [exact Hcount|]].
  - intros fuel Hfuel.
    pose proof (createSphere_terminates radius _ _ Hsc Hst fuel [] []
                  ltac:(lia) ltac:(lia) Hfuel) as Hrun.
    eexists _, _. split; [exact Hrun|]. exact (Hcount _ _ _ Hrun).
  - intros i k1 k2 Hi. rewrite quad_length. unfold quad_size.
    rewrite usub_stack_1 by (assumption || lia).
    destruct (Z.eqb_spec i 0), (Z.eqb_spec i (stackCount - 1)); cbn [orb]; lia.
Qed.

(** The sphere of [main]: 64 sectors, 64 stacks, radius 1. *)
Lemma createSphere_counts_witness :
  exists vertices indices,
    createSphere 1 64 64 200 [] [] = Some (vertices, indices) /\
    Z.of_nat (length vertices) = 8 * 4225 /\
    Z.of_nat (length indices) = 3 * 8064.
Proof.
  destruct (createSphere_counts 1 64 64 ltac:(lra)
              ltac:(unfold UINT_MAX; lia) ltac:(unfold UINT_MAX; lia))
    as (Hret & _).
  exact (Hret 200%nat ltac:(lia)).
Defined.

(** C7, as stated, fails: with no sectors [createSphere] returns four
    vertices and no triangle where the claim has it reject the parameters. *)
Lemma createSphere_accepts_zero_sectors :
  ~ (forall radius sectorCount stackCount,
        is_uint sectorCount -> is_uint stackCount ->
        invalid_parameters radius sectorCount stackCount ->
        rejects radius sectorCount stackCount).
Proof.
  intros Hclaim.
  assert (U0 : is_uint 0) by (unfold is_uint, UINT_MAX; lia).
  assert (U3 : is_uint 3) by (unfold is_uint, UINT_MAX; lia).
  assert (Hbad : invalid_parameters 1 0 3) by (right; left; reflexivity).
  pose proof (Hclaim 1%R 0 3 U0 U3 Hbad 10%nat [] []) as Hrej.
  rewrite (createSphere_terminates 1 0 3 U0 U3) in Hrej
    by (unfold UINT_MAX; lia).
  specialize (Hrej _ eq_refl). discriminate Hrej.
Qed.

(** C7, amended.  [createSphere] validates nothing: for every radius, zero
    and negative ones included, and all counts below [UINT_MAX], zero
    included, it returns, with (stackCount+1)*(sectorCount+1) vertices, at
    least one, appended; with no sectors or no stacks it appends no index. *)
Theorem createSphere_no_validation (radius : R) (sectorCount stackCount : Z) :
  is_uint sectorCount -> is_uint stackCount ->
  sectorCount < UINT_MAX -> stackCount < UINT_MAX ->
  forall fuel, stackCount + sectorCount + 2 < Z.of_nat fuel ->
  exists vertices indices,
    createSphere radius sectorCount stackCount fuel [] []
      = Some (vertices, indices) /\
    Z.of_nat (length vertices) = 8 * ((stackCount + 1) * (sectorCount + 1)) /\
    0 < Z.of_nat (length vertices) /\
    (sectorCount = 0 \/ stackCount = 0 -> indices = []) /\
    ~ rejects radius sectorCount stackCount.
Proof.
  intros Hsc Hst Hsc' Hst' fuel Hfuel.
  pose proof (createSphere_terminates radius _ _ Hsc Hst fuel [] []
                Hsc' Hst' Hfuel) as Hrun.
  pose proof (sphere_vertices_length radius _ _ Hsc Hst) as Hlen.
  assert (Hpos : 0 < Z.of_nat (length (sphere_vertices radius sectorCount stackCount))).
  { rewrite Hlen. red in Hsc, Hst. nia. }
  eexists _, _. split; [exact Hrun|]. cbn [app].
  split; [exact Hlen|]. split; [exact Hpos|]. split.
  - apply sphere_indices_degenerate.
  - intros Hrej. specialize (Hrej _ _ _ _ Hrun).
    injection Hrej as Hv _. cbn [app] in Hv. rewrite Hv in Hpos.
    cbn in Hpos. lia.
Qed.

Lemma createSphere_no_validation_witness :
  exists vertices,
    createSphere 0 0 0 3 [] [] = Some (vertices, []) /\
    Z.of_nat (length vertices) = 8.
Proof.
  assert (U0 : is_uint 0) by (unfold is_uint, UINT_MAX; lia).
  destruct (createSphere_no_validation 0 0 0 U0 U0
              ltac:(unfold UINT_MAX; lia) ltac:(unfold UINT_MAX; lia)
              3%nat ltac:(lia))
    as (vertices & indices & Hrun & Hlen & _ & Hnil & _).
  exists vertices. rewrite (Hnil (or_introl eq_refl)) in Hrun.
  split; [exact Hrun | exact Hlen].
Defined.

(** C9.  [createSphere] appends to the vectors it is given and never clears
    them: for any initial contents the result is the initial contents
    followed by what the same call generates from empty vectors (and the
    call returns as soon as the counts are below [UINT_MAX]); so the sizes
    of the results are the documented ones, 8*(stackCount+1)*(sectorCount+1)
    floats and 3*2*sectorCount*(stackCount-1) indices, only when the vectors
    passed in are empty. *)
Theorem createSphere_appends (radius : R) (sectorCount stackCount : Z)
    (fuel : nat) (vertices : list R) (indices : list Z) :
  is_uint sectorCount -> is_uint stackCount -> 1 <= stackCount ->
  createSphere radius sectorCount stackCount fuel vertices indices
  = match createSphere radius sectorCount stackCount fuel [] [] with
    | Some (vertices', indices') =>
        Some (vertices ++ vertices', indices ++ indices')
    | None => None
    end
  /\ (sectorCount < UINT_MAX -> stackCount < UINT_MAX ->
      stackCount + sectorCount + 2 < Z.of_nat fuel ->
      exists vertices' indices',
        createSphere radius sectorCount stackCount fuel [] []
          = Some (vertices', indices'))
  /\ (forall vertices' indices',
      createSphere radius sectorCount stackCount fuel vertices indices
        = Some (vertices', indices') ->
      (Z.of_nat (length vertices') = 8 * ((stackCount + 1) * (sectorCount + 1))
       <-> vertices = []) /\
      (Z.of_nat (length indices') = 3 * (2 * sectorCount * (stackCount - 1))
       <-> indices = [])).
Proof.
  intros Hsc Hst Hst1. split; [apply createSphere_frame | split].
  - intros Hsc' Hst' Hfuel. eexists _, _. now apply createSphere_terminates.
  - intros vertices' indices' Hrun.
    apply createSphere_returns in Hrun; [|assumption..].
    destruct Hrun as (_ & _ & -> & ->).
    rewrite !length_app, !Nat2Z.inj_add.
    rewrite sphere_vertices_length, sphere_indices_length by assumption.
    split; split; intros H; subst; try reflexivity.
    + destruct vertices; [reflexivity | cbn [length] in H; lia].
    + destruct indices; [reflexivity | cbn [length] in H; lia].
Qed.

(** A vector that already holds one float and one index. *)
Lemma createSphere_appends_witness :
  exists vertices' indices',
    createSphere 1 64 64 200 [0%R] [7] = Some (0%R :: vertices', 7 :: indices') /\
    Z.of_nat (length (0%R :: vertices')) <> 8 * (65 * 65).
Proof.
  assert (U : is_uint 64) by (unfold is_uint, UINT_MAX; lia).
  destruct (createSphere_appends 1 64 64 200 [0%R] [7] U U ltac:(lia))
    as (Happ & Hret & Hsize).
  destruct (Hret ltac:(unfold UINT_MAX; lia) ltac:(unfold UINT_MAX; lia)
                 ltac:(lia)) as (vertices' & indices' & Hrun).
  rewrite Hrun in Happ. exists vertices', indices'. split; [exact Happ|].
  intros Hlen. apply (Hsize _ _ Happ) in Hlen. discriminate Hlen.
Defined.

(** C10.  For all sectorCount >= 1 and stackCount >= 2 (values of type
    [unsigned int]), every index that [createSphere] pushes is below
    (stackCount+1)*(sectorCount+1), the number of vertices it pushes, so it
    refers to a generated vertex; and the call returns as soon as the counts
    are below [UINT_MAX]. *)
Theorem createSphere_indices_in_range (radius : R) (sectorCount stackCount : Z) :
  is_uint sectorCount -> is_uint stackCount ->
  1 <= sectorCount -> 2 <= stackCount ->
  (forall fuel vertices indices,
      createSphere radius sectorCount stackCount fuel [] []
        = Some (vertices, indices) ->
      Z.of_nat (length vertices) = 8 * ((stackCount + 1) * (sectorCount + 1)) /\
      forall k, In k indices ->
        0 <= k < (stackCount + 1) * (sectorCount + 1))
  /\ (sectorCount < UINT_MAX -> stackCount < UINT_MAX ->
      forall fuel, stackCount + sectorCount + 2 < Z.of_nat fuel ->
      exists vertices indices,
        createSphere radius sectorCount stackCount fuel [] []
          = Some (vertices, indices)).
Proof.
  intros Hsc Hst _ _. split.
  - intros fuel vertices indices Hrun.
    apply createSphere_returns in Hrun; [|assumption..].
    destruct Hrun as (_ & _ & -> & ->). cbn [app]. split.
    + now apply sphere_vertices_length.
    + intros k Hk.
      pose proof (sphere_indices_in_mesh _ _ Hsc Hst) as Hall.
      rewrite Forall_forall in Hall. exact (Hall k Hk).
  - intros Hsc' Hst' fuel Hfuel. eexists _, _.
    now apply createSphere_terminates.
Qed.

(** The smallest sphere of the claim: one sector and two stacks. *)
Lemma createSphere_indices_in_range_witness :
  exists vertices indices,
    createSphere 1 1 2 6 [] [] = Some (vertices, indices) /\
    forall k, In k indices -> 0 <= k < 6.
Proof.
  assert (U1 : is_uint 1) by (unfold is_uint, UINT_MAX; lia).
  assert (U2 : is_uint 2) by (unfold is_uint, UINT_MAX; lia).
  destruct (createSphere_indices_in_range 1 1 2 U1 U2 ltac:(lia) ltac:(lia))
    as (Hin & Hret).
  destruct (Hret ltac:(unfold UINT_MAX; lia) ltac:(unfold UINT_MAX; lia)
                 6%nat ltac:(lia)) as (vertices & indices & Hrun).
  exists vertices, indices. split; [exact Hrun|].
  exact (proj2 (Hin _ _ _ Hrun)).
Defined.

End SphereTheorems.

(** ** Orbital kinematics: statements *)

Module KinematicsTheorems.
Import Glm Kinematics.

#[local] Open Scope R_scope.

Lemma vec3_eq a b c a' b' c' :
  a = a' -> b = b' -> c = c' -> Vec3 a b c = Vec3 a' b' c'.
Proof. now intros -> -> ->. Qed.

Lemma vadd_zero3_l v : vadd zero3 v = v.
Proof. destruct v. unfold vadd. cbn. apply vec3_eq; ring. Qed.

(** After the orbit update every body but the first has the angle
    [currentFrame * orbitSpeed], whatever its angle was. *)
Lemma planet_at_animate_orbits t ps i :
  (1 <= i < length ps)%nat ->
  planet_at (animate_orbits t ps) i
  = set_orbitAngle (t * orbitSpeed (planet_at ps i)) (planet_at ps i).
Proof.
  unfold planet_at. destruct ps as [|sun rest]; cbn [length]; [lia|].
  destruct i as [|i]; [lia|]. intros Hi. cbn [animate_orbits nth].
  set (f := fun p => set_orbitAngle (t * orbitSpeed p) p).
  rewrite (nth_indep _ no_planet (f no_planet)) by (rewrite length_map; lia).
  now rewrite map_nth.
Qed.

Lemma orbit_vec_animated t p :
  orbit_vec (set_orbitAngle (t * orbitSpeed p) p) = orbit_offset p t.
Proof. unfold orbit_vec, orbit_offset. cbn. apply vec3_eq; ring. Qed.

Lemma animate_orbits_again t t0 ps :
  animate_orbits t (animate_orbits t0 ps) = animate_orbits t ps.
Proof.
  destruct ps as [|sun rest]; [reflexivity|].
  cbn [animate_orbits]. f_equal. rewrite map_map. reflexivity.
Qed.

(** The resolved position of a body other than the Sun and the Moon. *)
Lemma draw_pos_planet t w i :
  (1 <= i < length (planets w))%nat -> i <> 4%nat ->
  draw_pos (animate t w) i = orbit_offset (planet_at (planets w) i) t.
Proof.
  intros Hi H4. unfold draw_pos.
  destruct (Nat.eqb_spec i 0); [lia|].
  destruct (Nat.eqb_spec i 4); [lia|].
  destruct (Nat.eqb_spec i 3) as [->|_]; cbn [animate planets earthPos];
    now rewrite planet_at_animate_orbits, orbit_vec_animated.
Qed.

Lemma draw_pos_moon t w :
  (4 < length (planets w))%nat ->
  draw_pos (animate t w) 4
  = vadd (draw_pos (animate t w) 3) (orbit_offset (planet_at (planets w) 4) t).
Proof.
  intros Hlen. unfold draw_pos. cbn [Nat.eqb animate planets earthPos].
  now rewrite !planet_at_animate_orbits, !orbit_vec_animated by lia.
Qed.

Lemma follow_pos_draw_pos w i :
  (1 <= i)%nat -> follow_pos w (Z.of_nat i) = draw_pos w i.
Proof.
  intros Hi. unfold follow_pos, draw_pos.
  destruct (Nat.eqb_spec i 0); [lia|].
  destruct (Z.eqb_spec (Z.of_nat i) 4), (Nat.eqb_spec i 4); try lia; [reflexivity|].
  destruct (Z.eqb_spec (Z.of_nat i) 3), (Nat.eqb_spec i 3); try lia; [reflexivity|].
  now rewrite Nat2Z.id.
Qed.

(** C2.  For every body [i] but the Sun and every simulation time [t], the
    position resolved after the frame's update is the position of the body
    it orbits plus (orbitRadius * cos(t * orbitSpeed), 0,
    orbitRadius * sin(t * orbitSpeed)), in the draw loop and in
    [updateCameraFollow] alike; the offset from the parent is
    (orbitRadius, 0, 0) at t = 0 and (-orbitRadius, 0, 0) at
    t = PI / orbitSpeed; and the update at time [t] gives the same world
    whatever update came before it: the angle is recomputed from [t], not
    accumulated. *)
Theorem orbit_position (w : World) (t : R) (i : nat) :
  (4 < length (planets w))%nat ->
  (1 <= i < length (planets w))%nat ->
  let p := planet_at (planets w) i in
  let parent_pos t := draw_pos (animate t w) (parent_of i) in
  draw_pos (animate t w) i = vadd (parent_pos t) (orbit_offset p t)
  /\ follow_pos (animate t w) (Z.of_nat i) = draw_pos (animate t w) i
  /\ draw_pos (animate 0 w) i = vadd (parent_pos 0) (Vec3 (orbitRadius p) 0 0)
  /\ (orbitSpeed p <> 0 ->
      draw_pos (animate (PI / orbitSpeed p) w) i
      = vadd (parent_pos (PI / orbitSpeed p)) (Vec3 (- orbitRadius p) 0 0))
  /\ (forall t0, animate t (animate t0 w) = animate t w)
  /\ orbitAngle (planet_at (planets (animate t w)) i) = t * orbitSpeed p.
Proof.
  intros Hlen Hi p parent_pos.
  assert (Hpos : forall t',
    draw_pos (animate t' w) i
    = vadd (draw_pos (animate t' w) (parent_of i)) (orbit_offset p t')).
  { intros t'. unfold parent_of. destruct (Nat.eqb_spec i 4) as [->|H4].
    - now apply draw_pos_moon.
    - cbn [draw_pos Nat.eqb]. rewrite vadd_zero3_l. now apply draw_pos_planet. }
  split; [apply Hpos|]. split; [apply follow_pos_draw_pos; lia|].
  split; [|split; [|split]].
  - unfold parent_pos. rewrite Hpos. f_equal. unfold orbit_offset.
    rewrite Rmult_0_l, cos_0, sin_0. apply vec3_eq; ring.
  - intros Hw. unfold parent_pos. rewrite Hpos. f_equal. unfold orbit_offset.
    replace (PI / orbitSpeed p * orbitSpeed p) with PI by (field; exact Hw).
    rewrite cos_PI, sin_PI. apply vec3_eq; ring.
  - intros t0. unfold animate. cbn [planets].
    now rewrite animate_orbits_again.
  - cbn [animate planets]. now rewrite planet_at_animate_orbits.
Qed.

(** Mars, on the roster of [main], half a Mars period after the start. *)
Lemma orbit_position_witness :
  draw_pos (animate (PI / 0.53) (initial_world loaded_textures)) 5
  = vadd zero3 (Vec3 (Ropp 3.8) 0 0).
Proof.
  destruct (orbit_position (initial_world loaded_textures) 0 5)
    as (_ & _ & _ & Hhalf & _); [cbn; lia | cbn; lia |].
  refine (Hhalf _). cbn [planet_at nth planets initial_world roster orbitSpeed].
  lra.
Defined.

(** C3.  At every simulation time the Moon's resolved position, as stored
    in [moonPos] and as recomputed by the draw loop and by
    [updateCameraFollow], is the Earth's resolved position of the same
    frame, which is the Earth's own point on its orbit and not the orbit's
    centre, plus the Moon's own offset around its parent; with an Earth
    orbit of radius zero the Moon circles the origin. *)
Theorem moon_follows_earth (w : World) (t : R) :
  (4 < length (planets w))%nat ->
  let w' := animate t w in
  let earth := planet_at (planets w) 3 in
  let moon := planet_at (planets w) 4 in
  moonPos w' = vadd (earthPos w') (orbit_offset moon t)
  /\ draw_pos w' 4 = vadd (draw_pos w' 3) (orbit_offset moon t)
  /\ follow_pos w' 4 = vadd (follow_pos w' 3) (orbit_offset moon t)
  /\ draw_pos w' 3 = earthPos w'
  /\ earthPos w' = orbit_offset earth t
  /\ (orbitRadius earth = 0 -> draw_pos w' 4 = orbit_offset moon t).
Proof.
  intros Hlen w' earth moon.
  assert (He : earthPos w' = orbit_offset earth t).
  { unfold w'. cbn [animate earthPos].
    now rewrite planet_at_animate_orbits, orbit_vec_animated by lia. }
  assert (Hm : draw_pos w' 4 = vadd (draw_pos w' 3) (orbit_offset moon t))
    by now apply draw_pos_moon.
  split; [|split; [exact Hm|split; [|split; [reflexivity|split; [exact He|]]]]].
  - unfold w'. cbn [animate moonPos earthPos].
    now rewrite (planet_at_animate_orbits t _ 4), orbit_vec_animated by lia.
  - exact Hm.
  - intros H0. rewrite Hm. change (draw_pos w' 3) with (earthPos w').
    rewrite He. unfold orbit_offset, vadd. cbn [vx vy vz]. rewrite H0.
    apply vec3_eq; ring.
Qed.

(** The roster of [main] a quarter of a second after the start. *)
Lemma moon_follows_earth_witness :
  moonPos (animate 0.25 (initial_world loaded_textures))
  = vadd (earthPos (animate 0.25 (initial_world loaded_textures)))
         (Vec3 (0.2 * cos (0.25 * 12)) 0 (0.2 * sin (0.25 * 12))).
Proof.
  destruct (moon_follows_earth (initial_world loaded_textures) 0.25)
    as (Hmoon & _); [cbn; lia|].
  exact Hmoon.
Defined.

End KinematicsTheorems.

(** ** Camera modes and input: statements *)

Module ControlsTheorems.
Import Controls.

#[local] Open Scope R_scope.

Section Ranges.

Variables (MouseSensitivity ZoomMin ZoomMax : R).
Hypothesis zoom_range : ZoomMin <= ZoomMax.

#[local] Abbreviation step := (step MouseSensitivity ZoomMin ZoomMax).
#[local] Abbreviation run := (run MouseSensitivity ZoomMin ZoomMax).

Ltac clamp :=
  repeat match goal with
         | |- context [Rlt_dec ?a ?b] => destruct (Rlt_dec a b)
         end.

Lemma poll_keys_in_ranges k s :
  in_ranges ZoomMin ZoomMax s -> in_ranges ZoomMin ZoomMax (poll_keys k s).
Proof.
  unfold in_ranges, poll_keys. intros H.
  destruct (keyQ k && negb (qPressedLast s))%bool,
    (keyE k && negb (ePressedLast s))%bool; exact H.
Qed.

Lemma mouse_callback_in_ranges x y s :
  in_ranges ZoomMin ZoomMax s ->
  in_ranges ZoomMin ZoomMax (mouse_callback MouseSensitivity x y s).
Proof.
  unfold in_ranges, mouse_callback. intros (Hp & Hd & Hz).
  destruct (firstMouse s), (cameraMode s);
    cbn [orbitPitch orbitDistance camera Zoom ProcessMouseMovement];
    repeat split; try lra; clamp; lra.
Qed.

Lemma scroll_callback_in_ranges x y s :
  in_ranges ZoomMin ZoomMax s ->
  in_ranges ZoomMin ZoomMax (scroll_callback ZoomMin ZoomMax x y s).
Proof.
  unfold in_ranges, scroll_callback. intros (Hp & Hd & Hz).
  destruct (cameraMode s);
    cbn [orbitPitch orbitDistance camera Zoom ProcessMouseScroll];
    repeat split; try lra; clamp; lra.
Qed.

Lemma step_in_ranges s e :
  in_ranges ZoomMin ZoomMax s -> in_ranges ZoomMin ZoomMax (step s e).
Proof.
  destruct e; cbn [Controls.step].
  - apply poll_keys_in_ranges.
  - apply mouse_callback_in_ranges.
  - apply scroll_callback_in_ranges.
Qed.

Lemma run_in_ranges es : forall s,
  in_ranges ZoomMin ZoomMax s -> in_ranges ZoomMin ZoomMax (run es s).
Proof.
  induction es as [|e es IH]; intros s Hs; [exact Hs|].
  cbn [Controls.run fold_left]. apply IH. now apply step_in_ranges.
Qed.

End Ranges.

(** *** The followed body and the camera mode *)

#[local] Open Scope Z_scope.

(** The index and the mode after one turn of the render loop, in terms of
    the three key edges. *)
Lemma poll_keys_idx k s :
  followedPlanetIdx (poll_keys k s)
  = let idx := followedPlanetIdx s in
    let idx := if previousBody k s then prev_idx idx else idx in
    if nextBody k s then next_idx idx else idx.
Proof.
  unfold poll_keys, previousBody, nextBody, prev_idx, next_idx.
  destruct (keyQ k && negb (qPressedLast s))%bool,
    (keyE k && negb (ePressedLast s))%bool; reflexivity.
Qed.

Lemma poll_keys_mode k s :
  cameraMode (poll_keys k s)
  = let mode := if (previousBody k s || nextBody k s)%bool
                then FOLLOW_PLANET else cameraMode s in
    if (mode_eqb mode FOLLOW_PLANET && moveStart k s)%bool then FREE else mode.
Proof.
  unfold poll_keys, previousBody, nextBody, moveStart.
  destruct (keyQ k && negb (qPressedLast s))%bool,
    (keyE k && negb (ePressedLast s))%bool; cbn [orb cameraMode];
    rewrite <- ?andb_assoc; reflexivity.
Qed.

Lemma poll_keys_flags k s :
  qPressedLast (poll_keys k s) = keyQ k /\
  ePressedLast (poll_keys k s) = keyE k /\
  wasdPressedLast (poll_keys k s) = wasdPressed k.
Proof.
  unfold poll_keys.
  destruct (keyQ k && negb (qPressedLast s))%bool,
    (keyE k && negb (ePressedLast s))%bool; now repeat split.
Qed.

Lemma next_idx_range idx : 1 <= idx <= 9 -> 1 <= next_idx idx <= 9.
Proof. unfold next_idx. destruct (Z.gtb_spec (idx + 1) 9); lia. Qed.

Lemma prev_idx_range idx : 1 <= idx <= 9 -> 1 <= prev_idx idx <= 9.
Proof. unfold prev_idx. destruct (Z.ltb_spec (idx - 1) 1); lia. Qed.

Lemma poll_keys_idx_range k s :
  1 <= followedPlanetIdx s <= 9 -> 1 <= followedPlanetIdx (poll_keys k s) <= 9.
Proof.
  intros H. rewrite poll_keys_idx. cbv zeta.
  destruct (previousBody k s), (nextBody k s);
    auto using next_idx_range, prev_idx_range.
Qed.

Lemma step_idx_range ms zmin zmax s e :
  1 <= followedPlanetIdx s <= 9 ->
  1 <= followedPlanetIdx (step ms zmin zmax s e) <= 9.
Proof.
  destruct e; cbn [step].
  - apply poll_keys_idx_range.
  - unfold mouse_callback. now destruct (firstMouse s), (cameraMode s).
  - unfold scroll_callback. now destruct (cameraMode s).
Qed.

Lemma run_idx_range ms zmin zmax es : forall s,
  1 <= followedPlanetIdx s <= 9 ->
  1 <= followedPlanetIdx (run ms zmin zmax es s) <= 9.
Proof.
  induction es as [|e es IH]; intros s Hs; [exact Hs|].
  cbn [run fold_left]. apply IH. now apply step_idx_range.
Qed.

(** A tap of E alone moves to the next body and leaves E released. *)
Lemma tap_E s :
  ePressedLast s = false ->
  followedPlanetIdx (tap only_E s) = next_idx (followedPlanetIdx s)
  /\ ePressedLast (tap only_E s) = false.
Proof.
  intros He. unfold tap. split; [|apply poll_keys_flags].
  rewrite !poll_keys_idx. unfold previousBody, nextBody. cbn. now rewrite He.
Qed.

Lemma tap_Q s :
  qPressedLast s = false ->
  followedPlanetIdx (tap only_Q s) = prev_idx (followedPlanetIdx s)
  /\ qPressedLast (tap only_Q s) = false.
Proof.
  intros Hq. unfold tap. split; [|apply poll_keys_flags].
  rewrite !poll_keys_idx. unfold previousBody, nextBody. cbn. now rewrite Hq.
Qed.

Lemma taps_E n : forall s,
  ePressedLast s = false ->
  followedPlanetIdx (Nat.iter n (tap only_E) s)
  = Nat.iter n next_idx (followedPlanetIdx s)
  /\ ePressedLast (Nat.iter n (tap only_E) s) = false.
Proof.
  induction n as [|n IH]; intros s He; [now split|].
  rewrite !Nat.iter_succ. destruct (IH s He) as [Hidx Hflag].
  destruct (tap_E _ Hflag) as [Hidx' Hflag']. now rewrite Hidx', Hidx.
Qed.

Lemma next_idx_cycle idx : 1 <= idx <= 9 -> Nat.iter 9 next_idx idx = idx.
Proof.
  intros H.
  assert (E : idx = 1 \/ idx = 2 \/ idx = 3 \/ idx = 4 \/ idx = 5 \/ idx = 6
              \/ idx = 7 \/ idx = 8 \/ idx = 9) by lia.
  repeat (destruct E as [->|E]; [reflexivity|]). now subst idx.
Qed.

(** C5.  A press of the next-body or previous-body key acts in the turn of
    the render loop in which the key is down and was up in the turn before,
    and not while it is held; it moves the followed index by one around the
    cycle 1..9, so the index never is 0, the Sun: from 1 the previous body
    is 9, from 9 the next body is 1, and nine taps of the next-body key lead
    from any index of the cycle, 3 for one, back to it. *)
Theorem body_cycling (s : State) (k : Keys) :
  1 <= followedPlanetIdx s <= 9 ->
  let s' := poll_keys k s in
  1 <= followedPlanetIdx s' <= 9
  /\ (previousBody k s = false -> nextBody k s = false ->
      followedPlanetIdx s' = followedPlanetIdx s)
  /\ (previousBody k s = true -> nextBody k s = false ->
      followedPlanetIdx s'
      = if followedPlanetIdx s =? 1 then 9 else followedPlanetIdx s - 1)
  /\ (previousBody k s = false -> nextBody k s = true ->
      followedPlanetIdx s'
      = if followedPlanetIdx s =? 9 then 1 else followedPlanetIdx s + 1)
  /\ (qPressedLast s' = keyQ k /\ ePressedLast s' = keyE k)
  /\ (forall ms zmin zmax es,
      1 <= followedPlanetIdx (run ms zmin zmax es s) <= 9)
  /\ (qPressedLast s = false -> followedPlanetIdx s = 1 ->
      followedPlanetIdx (tap only_Q s) = 9)
  /\ (ePressedLast s = false -> followedPlanetIdx s = 9 ->
      followedPlanetIdx (tap only_E s) = 1)
  /\ (ePressedLast s = false ->
      followedPlanetIdx (Nat.iter 9 (tap only_E) s) = followedPlanetIdx s).
Proof.
  intros Hidx s'. unfold s'.
  split; [now apply poll_keys_idx_range|].
  split; [intros Hq He; rewrite poll_keys_idx; cbv zeta; now rewrite Hq, He|].
  split.
  { intros Hq He. rewrite poll_keys_idx. cbv zeta. rewrite Hq, He.
    unfold prev_idx.
    destruct (Z.ltb_spec (followedPlanetIdx s - 1) 1),
      (Z.eqb_spec (followedPlanetIdx s) 1); lia. }
  split.
  { intros Hq He. rewrite poll_keys_idx. cbv zeta. rewrite Hq, He.
    unfold next_idx.
    destruct (Z.gtb_spec (followedPlanetIdx s + 1) 9),
      (Z.eqb_spec (followedPlanetIdx s) 9); lia. }
  split; [split; apply poll_keys_flags|].
  split; [intros ms zmin zmax es; now apply run_idx_range|].
  split; [intros Hq H1; rewrite (proj1 (tap_Q s Hq)), H1; reflexivity|].
  split; [intros He H9; rewrite (proj1 (tap_E s He)), H9; reflexivity|].
  intros He. rewrite (proj1 (taps_E 9 s He)). now apply next_idx_cycle.
Qed.

(** The program's initial state, which follows body 3, and nine taps of E. *)
Lemma body_cycling_witness :
  followedPlanetIdx (Nat.iter 9 (tap only_E) (initial (mkCamera 0 0 45))) = 3.
Proof.
  refine (proj2 (proj2 (proj2 (proj2 (proj2 (proj2 (proj2 (proj2
    (body_cycling (initial (mkCamera 0 0 45)) no_keys _)))))))) eq_refl).
  cbn. lia.
Defined.

(** The four movement keys count as one input: while one of them is held,
    pressing another one starts no movement and leaves the mode alone. *)
Remark held_key_masks_new_press s k :
  cameraMode s = FOLLOW_PLANET -> wasdPressedLast s = true ->
  previousBody k s = false -> nextBody k s = false ->
  cameraMode (poll_keys k s) = FOLLOW_PLANET.
Proof.
  intros Hmode Hlast Hq He. rewrite poll_keys_mode. unfold moveStart.
  rewrite Hq, He, Hmode, Hlast. cbn. now rewrite andb_false_r.
Qed.

Example press_W_frees_camera c :
  cameraMode (poll_keys only_W (initial c)) = FREE.
Proof. reflexivity. Qed.

Example press_E_follows_again c :
  let s := poll_keys only_E (poll_keys no_keys (poll_keys only_W (initial c))) in
  cameraMode s = FOLLOW_PLANET /\ followedPlanetIdx s = 4.
Proof. split; reflexivity. Qed.

Lemma wasdPressed_moving k : wasdPressed k = true <-> Input.moving k.
Proof.
  unfold wasdPressed, Input.moving.
  destruct (keyW k), (keyA k), (keyS k), (keyD k); cbn; intuition congruence.
Qed.

(** C6, as stated, fails: a press of a movement key (down in this turn, up
    in the turn before) while a body is followed does not always free the
    camera.  With W held since before the camera began to follow, a press
    of D leaves the mode as it is. *)
Lemma held_W_hides_press_of_D :
  ~ (forall (s : State) (k0 k : Keys),
        cameraMode (poll_keys k0 s) = FOLLOW_PLANET ->
        (cameraMode (poll_keys k (poll_keys k0 s)) = FREE
         <-> Input.movement_key_pressed k0 k = true)).
Proof.
  intros Hclaim.
  pose proof (Hclaim (poll_keys only_W (initial (mkCamera 0 0 45)))
                     Input.keys_WE Input.keys_WD eq_refl) as [_ H].
  specialize (H eq_refl). discriminate H.
Qed.

(** C6, amended.  The W, A, S and D keys count as one input.  Over two
    consecutive turns of the render loop, with keys [k0] and then [k], a
    camera that follows a body after the first turn is free after the
    second exactly when one of W, A, S, D is down in the second turn and
    none of them was down in the first; a free camera follows a body after
    the second turn only if Q or E is down in it and was up in the first,
    and then exactly when the second turn does not also start a movement;
    and the cursor and scroll callbacks change neither the mode nor the
    record of the keys of the turn before. *)
Theorem mode_transitions (s : State) (k0 k : Keys) :
  let s1 := poll_keys k0 s in
  let s' := poll_keys k s1 in
  let moving k := keyW k = true \/ keyA k = true \/ keyS k = true \/ keyD k = true in
  let switching :=
    (keyQ k = true /\ keyQ k0 = false) \/ (keyE k = true /\ keyE k0 = false) in
  (cameraMode s1 = FOLLOW_PLANET ->
   (cameraMode s' = FREE <-> moving k /\ ~ moving k0))
  /\ (cameraMode s1 = FREE -> cameraMode s' = FOLLOW_PLANET -> switching)
  /\ (cameraMode s1 = FREE ->
      (cameraMode s' = FOLLOW_PLANET <->
       switching /\ ~ (moving k /\ ~ moving k0)))
  /\ (cameraMode s = FOLLOW_PLANET ->
      (cameraMode s1 = FREE <-> moving k0 /\ wasdPressedLast s = false))
  /\ (forall ms x y,
      let c := mouse_callback ms x y s in
      cameraMode c = cameraMode s /\ wasdPressedLast c = wasdPressedLast s /\
      qPressedLast c = qPressedLast s /\ ePressedLast c = ePressedLast s)
  /\ (forall zmin zmax x y,
      let c := scroll_callback zmin zmax x y s in
      cameraMode c = cameraMode s /\ wasdPressedLast c = wasdPressedLast s /\
      qPressedLast c = qPressedLast s /\ ePressedLast c = ePressedLast s).
Proof.
  cbv zeta.
  destruct (poll_keys_flags k0 s) as (Hq & He & Hw).
  assert (Hmove : moveStart k (poll_keys k0 s) = true <->
                  Input.moving k /\ ~ Input.moving k0).
  { unfold moveStart. rewrite Hw, <- !wasdPressed_moving.
    destruct (wasdPressed k), (wasdPressed k0); cbn; intuition congruence. }
  assert (Hswitch :
    (previousBody k (poll_keys k0 s) || nextBody k (poll_keys k0 s))%bool = true <->
    (keyQ k = true /\ keyQ k0 = false) \/ (keyE k = true /\ keyE k0 = false)).
  { unfold previousBody, nextBody. rewrite Hq, He.
    destruct (keyQ k), (keyQ k0), (keyE k), (keyE k0); cbn; intuition congruence. }
  unfold Input.moving in Hmove.
  split; [|split; [|split; [|split; [|split]]]].
  - intros Hmode. rewrite poll_keys_mode, Hmode, <- Hmove. cbv zeta.
    destruct (previousBody k _ || nextBody k _)%bool, (moveStart k _);
      cbn; split; congruence.
  - intros Hmode. rewrite poll_keys_mode, Hmode, <- Hswitch. cbv zeta.
    destruct (previousBody k _ || nextBody k _)%bool, (moveStart k _);
      cbn; congruence.
  - intros Hmode. rewrite poll_keys_mode, Hmode, <- Hswitch, <- Hmove. cbv zeta.
    destruct (previousBody k _ || nextBody k _)%bool, (moveStart k _);
      cbn; intuition congruence.
  - intros Hmode. rewrite poll_keys_mode, Hmode. cbv zeta.
    unfold moveStart.
    pose proof (wasdPressed_moving k0) as Hk0. unfold Input.moving in Hk0.
    rewrite <- Hk0.
    destruct (previousBody k0 s || nextBody k0 s)%bool, (wasdPressed k0),
      (wasdPressedLast s); cbn; intuition congruence.
  - intros ms x y. unfold mouse_callback.
    destruct (firstMouse s), (cameraMode s); cbn; auto.
  - intros zmin zmax x y. unfold scroll_callback.
    destruct (cameraMode s); cbn; auto.
Qed.

End ControlsTheorems.

(** ** The callbacks on floats: statements *)

Module FloatControlsTheorems.
Import Floats Controls FloatControls.

#[local] Open Scope R_scope.

(** Case analysis on every comparison of reals in the goal, innermost
    first, after the float operations are unfolded. *)
Ltac float_cases :=
  cbv [of_double overflow scale_inf fsub fneg fadd fmul flt fgt within finite] in *;
  repeat (match goal with
          | |- context [Rlt_dec ?a ?b] =>
              lazymatch a with
              | context [Rlt_dec _ _] => fail
              | _ => lazymatch b with
                     | context [Rlt_dec _ _] => fail
                     | _ => destruct (Rlt_dec a b)
                     end
              end
          end; cbv beta iota in *).

Lemma of_double_finite x : - FLT_MAX <= x <= FLT_MAX -> of_double x = Fin x.
Proof. intros H. float_cases; (reflexivity || lra). Qed.

Section Ranges.

Variables (MouseSensitivity ZoomMin ZoomMax : R).
Hypothesis zoom_range : ZoomMin <= ZoomMax.

#[local] Abbreviation step := (step MouseSensitivity ZoomMin ZoomMax).
#[local] Abbreviation run := (run MouseSensitivity ZoomMin ZoomMax).
#[local] Abbreviation in_ranges := (in_ranges ZoomMin ZoomMax).
#[local] Abbreviation kept := (kept ZoomMin ZoomMax).

Lemma poll_keys_kept k s : kept s -> kept (poll_keys k s).
Proof.
  unfold FloatControls.kept, FloatControls.in_ranges, poll_keys. intros H.
  destruct (keyQ k && negb (qPressedLast s))%bool,
    (keyE k && negb (ePressedLast s))%bool; exact H.
Qed.

Lemma mouse_callback_kept x y s :
  - FLT_MAX <= y <= FLT_MAX ->
  kept s -> kept (mouse_callback MouseSensitivity x y s).
Proof.
  intros Hy ((Hp & Hd & Hz) & Hl).
  unfold FloatControls.kept, FloatControls.in_ranges, mouse_callback.
  rewrite (of_double_finite y Hy).
  destruct (firstMouse s), (cameraMode s);
    cbn [orbitPitch orbitDistance camera Zoom lastY ProcessMouseMovement];
    (split; [split; [|split; assumption] | exact I]); try assumption;
    destruct (orbitPitch s) as [p| | |]; try contradiction;
    destruct (lastY s) as [l| | |]; try contradiction;
    float_cases; lra.
Qed.

Lemma scroll_callback_kept x y s :
  kept s -> kept (scroll_callback ZoomMin ZoomMax x y s).
Proof.
  intros ((Hp & Hd & Hz) & Hl).
  unfold FloatControls.kept, FloatControls.in_ranges, scroll_callback.
  destruct (cameraMode s);
    cbn [orbitPitch orbitDistance camera Zoom lastY ProcessMouseScroll];
    (split; [split; [assumption | split] | assumption]); try assumption.
  - destruct (orbitDistance s) as [d| | |]; try contradiction.
    float_cases; lra.
  - destruct (Zoom (camera s)) as [z| | |]; try contradiction.
    float_cases; lra.
Qed.

Lemma step_kept s e : finite_cursor e -> kept s -> kept (step s e).
Proof.
  destruct e; cbn [FloatControls.step finite_cursor]; intros He.
  - apply poll_keys_kept.
  - now apply mouse_callback_kept.
  - apply scroll_callback_kept.
Qed.

Lemma run_kept es : forall s,
  Forall finite_cursor es -> kept s -> kept (run es s).
Proof.
  induction es as [|e es IH]; intros s Hes Hs; [exact Hs|].
  inversion Hes as [|? ? He Hes']; subst.
  cbn [FloatControls.run fold_left]. apply IH; [assumption|].
  now apply step_kept.
Qed.

End Ranges.




End FloatControlsTheorems.

(** ** The asteroid belt: statements *)

Module AsteroidsTheorems.
Import Glm Asteroids.

#[local] Open Scope R_scope.

Section Belt.

Variable rng : Type.
Variable rand : rng -> Z * rng.
Variable RAND_MAX : Z.

Hypothesis RAND_MAX_pos : (0 < RAND_MAX)%Z.
Hypothesis rand_range : forall g, (0 <= fst (rand g) <= RAND_MAX)%Z.

#[local] Abbreviation draw := (draw rng rand).
#[local] Abbreviation skip := (skip rng rand).
#[local] Abbreviation unit_draw := (unit_draw rng rand RAND_MAX).
#[local] Abbreviation radius_of := (radius_of rng rand RAND_MAX).
#[local] Abbreviation height_of := (height_of rng rand RAND_MAX).
#[local] Abbreviation scale_of := (scale_of rng rand RAND_MAX).
#[local] Abbreviation position_of := (position_of rng rand RAND_MAX).
#[local] Abbreviation belt_loop := (belt_loop rng rand RAND_MAX).
#[local] Abbreviation generate := (generate rng rand RAND_MAX).

Lemma draw_skip n : forall k g, draw (n + k) g = draw k (skip n g).
Proof. induction n as [|n IH]; intros k g; [reflexivity | apply IH]. Qed.

Lemma skip_skip n : forall m g, skip (n + m) g = skip m (skip n g).
Proof. induction n as [|n IH]; intros m g; [reflexivity | apply IH]. Qed.

Lemma draw_range k : forall g, (0 <= draw k g <= RAND_MAX)%Z.
Proof. induction k as [|k IH]; intros g; [apply rand_range | apply IH]. Qed.

Lemma unit_draw_range k g : 0 <= unit_draw k g <= 1.
Proof.
  unfold Asteroids.unit_draw.
  pose proof (draw_range k g) as [H0 H1].
  apply IZR_le in H0, H1. pose proof (IZR_lt _ _ RAND_MAX_pos) as Hpos.
  split.
  - apply Rmult_le_pos; [exact H0 | left; now apply Rinv_0_lt_compat].
  - apply (Rmult_le_reg_r (IZR RAND_MAX)); [exact Hpos|].
    unfold Rdiv. rewrite Rmult_assoc, Rinv_l, Rmult_1_r, Rmult_1_l; lra.
Qed.

(** One turn of the loop from state [g]: the asteroid made of the next
    three values, and the state three calls on. *)
Lemma place_asteroid_run n i b g :
  place_asteroid rng rand RAND_MAX n (Z.of_nat i) b g
  = (mkBelt (asteroidPositions b
               ++ [Vec3 (cos (slot_angle n i) * (5.5 + unit_draw 0 g * 2.5))
                        ((unit_draw 1 g - 0.5) * 0.25)
                        (sin (slot_angle n i) * (5.5 + unit_draw 0 g * 2.5))])
            (asteroidScales b ++ [0.02 + unit_draw 2 g * 0.0175]),
     skip 3 g).
Proof.
  unfold place_asteroid, rand_unit, bind, ret, Asteroids.unit_draw, slot_angle,
    two_pi.
  cbn [Asteroids.draw Asteroids.skip].
  destruct (rand g) as [r1 g1]. cbn [fst snd].
  destruct (rand g1) as [r2 g2]. cbn [fst snd].
  destruct (rand g2) as [r3 g3]. reflexivity.
Qed.

(** The loop from index [i] and state [skip (3 * i) seed]. *)
Lemma belt_loop_run n seed todo : forall i b,
  belt_loop n todo (Z.of_nat i) b (skip (3 * i) seed)
  = (mkBelt (asteroidPositions b ++ map (position_of n seed) (seq i todo))
            (asteroidScales b ++ map (scale_of seed) (seq i todo)),
     skip (3 * (i + todo)) seed).
Proof.
  induction todo as [|todo IH]; intros i b.
  - cbn [Asteroids.belt_loop seq map ret]. rewrite !app_nil_r, Nat.add_0_r.
    now destruct b.
  - cbn [Asteroids.belt_loop seq map]. unfold bind.
    rewrite place_asteroid_run.
    replace (Z.of_nat i + 1)%Z with (Z.of_nat (S i)) by lia.
    replace (skip 3 (skip (3 * i) seed)) with (skip (3 * S i) seed)
      by (rewrite <- skip_skip; f_equal; lia).
    rewrite IH. cbn [asteroidPositions asteroidScales].
    rewrite <- !app_assoc. cbn [app].
    unfold Asteroids.position_of, Asteroids.radius_of, Asteroids.height_of,
      Asteroids.scale_of, Asteroids.unit_draw.
    rewrite <- !draw_skip, !Nat.add_0_r.
    do 3 f_equal. lia.
Qed.

Lemma generate_run n seed :
  fst (generate n seed)
  = mkBelt (map (position_of n seed) (seq 0 (Z.to_nat n)))
           (map (scale_of seed) (seq 0 (Z.to_nat n))).
Proof.
  unfold Asteroids.generate.
  change seed with (skip (3 * 0) seed) at 1. change 0%Z with (Z.of_nat 0).
  now rewrite belt_loop_run.
Qed.

End Belt.

Lemma nth_map_seq {A : Type} (f : nat -> A) n i d :
  (i < n)%nat -> nth i (map f (seq 0 n)) d = f i.
Proof.
  intros Hi. rewrite (nth_indep _ d (f 0%nat)) by (rewrite length_map, length_seq; lia).
  rewrite map_nth, seq_nth by lia. reflexivity.
Qed.

Lemma on_circle a r : (cos a * r) * (cos a * r) + (sin a * r) * (sin a * r) = r * r.
Proof.
  pose proof (sin2_cos2 a) as H. unfold Rsqr in H.
  replace (cos a * r * (cos a * r) + sin a * r * (sin a * r))
    with ((sin a * sin a + cos a * cos a) * (r * r)) by ring.
  rewrite H. ring.
Qed.

(** C8.  The asteroid loop, run for a count of [n] from generator state
    [seed], fills both vectors with exactly [n] entries; asteroid [i] sits
    at the angle (i/n) * 2 PI, which involves no random value, at a radius
    drawn as 5.5 + U * 2.5, where U is a value of [rand()] scaled to
    [0, 1], which lies within [5.5, 8.0] and is its distance from the
    vertical axis; its height and its scale are the next two random
    values; and the belt is a function of the values that [rand()]
    delivers: two states that deliver the same first [3n] values, two equal
    seeds for one, give the same belt. *)
Theorem asteroid_belt (rng : Type) (rand : rng -> Z * rng) (RAND_MAX : Z)
    (n : Z) (seed : rng) :
  (0 < RAND_MAX)%Z ->
  (forall g, (0 <= fst (rand g) <= RAND_MAX)%Z) ->
  (0 <= n)%Z ->
  let belt := fst (generate rng rand RAND_MAX n seed) in
  let U k := IZR (draw rng rand k seed) / IZR RAND_MAX in
  Z.of_nat (length (asteroidPositions belt)) = n
  /\ Z.of_nat (length (asteroidScales belt)) = n
  /\ (forall i, (Z.of_nat i < n)%Z ->
      let angle := IZR (Z.of_nat i) / IZR n * (2 * PI) in
      let radius := 5.5 + U (3 * i)%nat * 2.5 in
      let height := (U (3 * i + 1)%nat - 0.5) * 0.25 in
      let p := nth i (asteroidPositions belt) zero3 in
      p = Vec3 (cos angle * radius) height (sin angle * radius)
      /\ nth i (asteroidScales belt) 0 = 0.02 + U (3 * i + 2)%nat * 0.0175
      /\ 5.5 <= radius <= 8.0
      /\ vx p * vx p + vz p * vz p = radius * radius
      /\ - (0.25 / 2) <= height <= 0.25 / 2)
  /\ (forall seed',
      (forall k, (k < 3 * Z.to_nat n)%nat ->
                 draw rng rand k seed' = draw rng rand k seed) ->
      fst (generate rng rand RAND_MAX n seed') = belt)
  /\ (forall seed', seed' = seed ->
      fst (generate rng rand RAND_MAX n seed') = belt).
Proof.
  intros Hmax Hrand Hn belt U. unfold belt. rewrite generate_run.
  cbn [asteroidPositions asteroidScales].
  split; [rewrite length_map, length_seq; lia|].
  split; [rewrite length_map, length_seq; lia|].
  split; [|split].
  - intros i Hi. cbv zeta. rewrite !nth_map_seq by lia.
    pose proof (unit_draw_range rng rand RAND_MAX Hmax Hrand (3 * i) seed) as Hr.
    pose proof (unit_draw_range rng rand RAND_MAX Hmax Hrand (3 * i + 1) seed) as Hh.
    unfold unit_draw in Hr, Hh. fold (U (3 * i)%nat) in Hr.
    fold (U (3 * i + 1)%nat) in Hh.
    split; [reflexivity|]. split; [reflexivity|]. split; [lra|].
    split; [|lra].
    unfold position_of. cbn [vx vz]. apply on_circle.
  - intros seed' Hsame. rewrite generate_run. f_equal.
    + apply map_ext_in. intros i Hi. apply in_seq in Hi.
      unfold position_of, radius_of, height_of, unit_draw.
      now rewrite !Hsame by lia.
    + apply map_ext_in. intros i Hi. apply in_seq in Hi.
      unfold scale_of, unit_draw. now rewrite Hsame by lia.
  - intros seed' ->. now rewrite generate_run.
Qed.

Lemma sample_rand_range g : (0 <= fst (sample_rand g) <= sample_RAND_MAX)%Z.
Proof.
  unfold sample_rand, sample_RAND_MAX. cbn [fst].
  pose proof (Z.mod_pos_bound ((g * 1103515245 + 12345) mod 4294967296 / 65536)
                32768 ltac:(lia)).
  lia.
Qed.

(** The belt of [main], 200 asteroids, with the sample generator of the C
    standard started at 1. *)
Lemma asteroid_belt_witness :
  let belt := fst (generate Z sample_rand sample_RAND_MAX asteroidCount 1%Z) in
  Z.of_nat (length (asteroidPositions belt)) = 200%Z /\
  Z.of_nat (length (asteroidScales belt)) = 200%Z.
Proof.
  intros belt.
  destruct (asteroid_belt Z sample_rand sample_RAND_MAX asteroidCount 1%Z)
    as (Hp & Hs & _);
    [reflexivity | exact sample_rand_range | unfold asteroidCount; lia |].
  split; [exact Hp | exact Hs].
Defined.

End AsteroidsTheorems.

(* ================================================================= *)
(** * Further properties *)

(** ** The sphere mesh: geometry, layout and connectivity *)

Module SphereExtra.
Import Unsigned UnsignedFacts Sphere SphereLoops Mesh.

Section Layout.

Variable radius : R.
Variables sectorCount stackCount : Z.
Hypothesis sector_uint : is_uint sectorCount.
Hypothesis stack_uint : is_uint stackCount.

#[local] Abbreviation vertex := (vertex radius sectorCount stackCount).
#[local] Abbreviation row_from := (row_from radius sectorCount stackCount).
#[local] Abbreviation rows_from := (rows_from radius sectorCount stackCount).
#[local] Abbreviation sphere_vertices := (sphere_vertices radius sectorCount stackCount).

Lemma row_from_app a : forall i j b,
  row_from i j (a + b) = row_from i j a ++ row_from i (j + Z.of_nat a) b.
Proof.
  induction a as [|a IH]; intros i j b.
  - cbn. now rewrite Z.add_0_r.
  - cbn [Nat.add Sphere.row_from]. rewrite IH, <- app_assoc.
    do 3 f_equal. lia.
Qed.

Lemma rows_from_app a : forall i b,
  rows_from i (a + b) = rows_from i a ++ rows_from (i + Z.of_nat a) b.
Proof.
  induction a as [|a IH]; intros i b.
  - cbn. now rewrite Z.add_0_r.
  - cbn [Nat.add Sphere.rows_from]. rewrite IH, <- app_assoc.
    do 3 f_equal. lia.
Qed.

(** The vertex vector, cut before and after the vertex of ring [i] and
    column [j]. *)
Lemma sphere_vertices_split i j :
  0 <= i <= stackCount -> 0 <= j <= sectorCount ->
  exists before after,
    sphere_vertices = before ++ vertex i j ++ after /\
    Z.of_nat (length before) = 8 * vertex_index sectorCount i j.
Proof.
  intros Hi Hj. unfold Sphere.sphere_vertices.
  replace (Z.to_nat (stackCount + 1))
    with (Z.to_nat i + S (Z.to_nat (stackCount - i)))%nat by lia.
  rewrite rows_from_app. cbn [Sphere.rows_from].
  replace (Z.to_nat (sectorCount + 1))
    with (Z.to_nat j + S (Z.to_nat (sectorCount - j)))%nat by lia.
  rewrite row_from_app. cbn [Sphere.row_from].
  rewrite !Z2Nat.id, !Z.add_0_l by lia.
  eexists (rows_from 0 (Z.to_nat i) ++ row_from i 0 (Z.to_nat j)), _. split.
  - rewrite <- !app_assoc. reflexivity.
  - rewrite length_app, Nat2Z.inj_add.
    rewrite (rows_from_length radius _ _ sector_uint), row_from_length.
    unfold vertex_index. rewrite !Z2Nat.id by lia. ring.
Qed.

Lemma vertex_at_sphere_vertices i j :
  0 <= i <= stackCount -> 0 <= j <= sectorCount ->
  vertex_at sphere_vertices (vertex_index sectorCount i j) = vertex i j.
Proof.
  intros Hi Hj.
  destruct (sphere_vertices_split i j Hi Hj) as (before & after & -> & Hlen).
  unfold vertex_at. rewrite <- Hlen, Nat2Z.id.
  rewrite skipn_app, skipn_all, Nat.sub_diag. cbn [app skipn].
  change 8%nat with (length (vertex i j)) at 1.
  rewrite firstn_app, firstn_all, Nat.sub_diag. cbn [firstn].
  now rewrite app_nil_r.
Qed.

End Layout.

Section Connectivity.

Variables sectorCount stackCount : Z.
Hypothesis sector_uint : is_uint sectorCount.
Hypothesis stack_uint : is_uint stackCount.

(** The vertex count fits the index type: no index wraps around. *)
Hypothesis fits : (stackCount + 1) * (sectorCount + 1) <= 4294967296.

#[local] Abbreviation quad := (quad stackCount).
#[local] Abbreviation quads_from := (quads_from sectorCount stackCount).
#[local] Abbreviation rings_from := (rings_from sectorCount stackCount).
#[local] Abbreviation cell_triangles := (cell_triangles sectorCount stackCount).
#[local] Abbreviation cells_from := (cells_from sectorCount stackCount).
#[local] Abbreviation bands_from := (bands_from sectorCount stackCount).
#[local] Abbreviation v := (vertex_index sectorCount).

Lemma cell_no_wrap i j :
  0 <= i < stackCount -> 0 <= j < sectorCount ->
  wrap32 (i * (sectorCount + 1) + j) = v i j /\
  wrap32 ((i + 1) * (sectorCount + 1) + j) = v (i + 1) j /\
  uadd (v i j) 1 = v i (j + 1) /\
  uadd (v (i + 1) j) 1 = v (i + 1) (j + 1).
Proof.
  intros Hi Hj. unfold uadd, vertex_index.
  assert (0 <= i * (sectorCount + 1)) by nia.
  assert ((i + 1) * (sectorCount + 1) + j + 1
          < (stackCount + 1) * (sectorCount + 1)) by nia.
  repeat split; rewrite ?Z.add_assoc; apply wrap32_small; unfold UINT_MAX; lia.
Qed.

Lemma triangles_quad i j rest :
  0 <= i < stackCount -> 0 <= j < sectorCount ->
  triangles (quad i (wrap32 (i * (sectorCount + 1) + j))
                    (wrap32 ((i + 1) * (sectorCount + 1) + j)) ++ rest)
  = cell_triangles i j ++ triangles rest.
Proof.
  intros Hi Hj.
  destruct (cell_no_wrap i j Hi Hj) as (-> & -> & H1 & H2).
  unfold Sphere.quad, Mesh.cell_triangles. rewrite H1, H2.
  rewrite (usub_stack_1 _ stack_uint) by lia.
  destruct (i =? 0), (i =? stackCount - 1); reflexivity.
Qed.

Lemma triangles_quads_from n : forall i j rest,
  0 <= i < stackCount -> 0 <= j -> j + Z.of_nat n <= sectorCount ->
  triangles (quads_from i j n ++ rest) = cells_from i j n ++ triangles rest.
Proof.
  induction n as [|n IH]; intros i j rest Hi Hj Hn; [reflexivity|].
  cbn [Sphere.quads_from Mesh.cells_from]. rewrite <- !app_assoc.
  rewrite triangles_quad by lia. now rewrite IH by lia.
Qed.

Lemma triangles_rings_from n : forall i,
  0 <= i -> i + Z.of_nat n <= stackCount ->
  triangles (rings_from i n) = bands_from i n.
Proof.
  induction n as [|n IH]; intros i Hi Hn; [reflexivity|].
  cbn [Sphere.rings_from Mesh.bands_from].
  rewrite triangles_quads_from by (red in sector_uint; lia).
  now rewrite IH by lia.
Qed.

Lemma In_cells_from t n : forall i j,
  In t (cells_from i j n) <->
  exists j', j <= j' < j + Z.of_nat n /\ In t (cell_triangles i j').
Proof.
  induction n as [|n IH]; intros i j.
  - cbn. split; [tauto | intros (j' & H & _); lia].
  - cbn [Mesh.cells_from]. rewrite in_app_iff, IH. split.
    + intros [H | (j' & Hj' & H)]; [exists j | exists j']; split; (lia || assumption).
    + intros (j' & Hj' & H). destruct (Z.eq_dec j' j) as [->|Hne]; [now left|].
      right. exists j'. split; [lia | assumption].
Qed.

Lemma In_bands_from t n : forall i,
  In t (bands_from i n) <->
  exists i' j', i <= i' < i + Z.of_nat n /\ 0 <= j' < sectorCount /\
                In t (cell_triangles i' j').
Proof.
  induction n as [|n IH]; intros i.
  - cbn. split; [tauto | intros (i' & j' & H & _); lia].
  - cbn [Mesh.bands_from]. rewrite in_app_iff, IH, In_cells_from.
    rewrite Z2Nat.id by (red in sector_uint; lia). split.
    + intros [(j' & Hj' & H) | (i' & j' & Hi' & Hj' & H)];
        [exists i, j' | exists i', j']; repeat split; (lia || assumption).
    + intros (i' & j' & Hi' & Hj' & H).
      destruct (Z.eq_dec i' i) as [->|Hne].
      * left. exists j'. split; [lia | assumption].
      * right. exists i', j'. repeat split; (lia || assumption).
Qed.

Lemma In_cell_triangles t i j :
  In t (cell_triangles i j) <->
  (i <> 0 /\ t = upper_triangle sectorCount i j) \/
  (i <> stackCount - 1 /\ t = lower_triangle sectorCount i j).
Proof.
  unfold Mesh.cell_triangles. rewrite in_app_iff.
  destruct (Z.eqb_spec i 0), (Z.eqb_spec i (stackCount - 1)); cbn;
    intuition congruence.
Qed.

Lemma In_triangles_sphere_indices t :
  In t (triangles (sphere_indices sectorCount stackCount)) <->
  grid_triangle sectorCount stackCount t.
Proof.
  unfold sphere_indices, grid_triangle.
  rewrite triangles_rings_from by (red in stack_uint; lia).
  rewrite In_bands_from. rewrite Z2Nat.id by (red in stack_uint; lia).
  split; intros (i & j & Hi & Hj & H); exists i, j;
    (split; [lia|]); (split; [exact Hj|]); now apply In_cell_triangles.
Qed.

End Connectivity.

#[local] Open Scope R_scope.



(** X2.  The texture coordinates of the vertex of ring [i] and column [j]
    lie in [0, 1]: [s] falls from 1 in column 0 to 0 in the last column and
    [t] from 1 in ring 0 to 0 in the last ring. *)
Theorem vertex_texcoords (radius : R) (sectorCount stackCount i j : Z) :
  (0 < sectorCount)%Z -> (0 < stackCount)%Z ->
  (0 <= i <= stackCount)%Z -> (0 <= j <= sectorCount)%Z ->
  let s := nth 6 (vertex radius sectorCount stackCount i j) 0 in
  let t := nth 7 (vertex radius sectorCount stackCount i j) 0 in
  0 <= s <= 1 /\ 0 <= t <= 1 /\
  (j = 0%Z -> s = 1) /\ (j = sectorCount -> s = 0) /\
  (i = 0%Z -> t = 1) /\ (i = stackCount -> t = 0).
Proof.
  intros Hsc Hst Hi Hj s t. unfold s, t. cbn [vertex nth].
  assert (Hsc' : 0 < IZR sectorCount) by now apply IZR_lt.
  assert (Hst' : 0 < IZR stackCount) by now apply IZR_lt.
  assert (Hu : forall a b, (0 <= a <= b)%Z -> 0 < IZR b ->
                           0 <= IZR a / IZR b <= 1).
  { intros a b [H0 H1] Hb. apply IZR_le in H0, H1. split.
    - apply Rmult_le_pos; [exact H0 | left; now apply Rinv_0_lt_compat].
    - apply (Rmult_le_reg_r (IZR b)); [exact Hb|].
      unfold Rdiv. rewrite Rmult_assoc, Rinv_l, Rmult_1_r, Rmult_1_l; lra. }
  pose proof (Hu j sectorCount Hj Hsc') as Hs.
  pose proof (Hu i stackCount Hi Hst') as Ht.
  split; [lra|]. split; [lra|].
  repeat split; intros ->; field; lra.
Qed.

Lemma vertex_texcoords_witness :
  nth 6 (vertex 1 64 64 16 64) 0 = 0 /\ nth 7 (vertex 1 64 64 0 5) 0 = 1.
Proof.
  split.
  - refine (proj1 (proj2 (proj2 (proj2
      (vertex_texcoords 1 64 64 16 64 _ _ _ _)))) eq_refl); lia.
  - refine (proj1 (proj2 (proj2 (proj2 (proj2
      (vertex_texcoords 1 64 64 0 5 _ _ _ _))))) eq_refl); lia.
Defined.

#[local] Open Scope Z_scope.

(** X3.  For positive counts below [UINT_MAX], [createSphere] returns, and
    in the vertex vector that it fills from empty the eight floats of the
    vertex of ring [i] and column [j] start at float
    [8 * (i * (sectorCount + 1) + j)]: read with a stride of eight, the index
    [i * (sectorCount + 1) + j] selects that vertex.  No fuel makes it
    return a vector laid out otherwise. *)
Theorem createSphere_vertex_layout (radius : R) (sectorCount stackCount : Z) :
  is_uint sectorCount -> is_uint stackCount ->
  0 < sectorCount -> 0 < stackCount ->
  (sectorCount < UINT_MAX -> stackCount < UINT_MAX ->
   forall fuel, stackCount + sectorCount + 2 < Z.of_nat fuel ->
   exists vertices indices,
     createSphere radius sectorCount stackCount fuel [] []
       = Some (vertices, indices) /\
     forall i j, 0 <= i <= stackCount -> 0 <= j <= sectorCount ->
       vertex_at vertices (vertex_index sectorCount i j)
       = vertex radius sectorCount stackCount i j)
  /\ (forall fuel vertices indices,
      createSphere radius sectorCount stackCount fuel [] []
        = Some (vertices, indices) ->
      forall i j, 0 <= i <= stackCount -> 0 <= j <= sectorCount ->
        vertex_at vertices (vertex_index sectorCount i j)
        = vertex radius sectorCount stackCount i j).
Proof.
  intros Hsc Hst _ _.
  assert (Hlayout : forall fuel vertices indices,
    createSphere radius sectorCount stackCount fuel [] []
      = Some (vertices, indices) ->
    forall i j, 0 <= i <= stackCount -> 0 <= j <= sectorCount ->
      vertex_at vertices (vertex_index sectorCount i j)
      = vertex radius sectorCount stackCount i j).
  { intros fuel vertices indices Hrun i j Hi Hj.
    apply createSphere_returns in Hrun; [|assumption..].
    destruct Hrun as (_ & _ & -> & _). cbn [app].
    now apply vertex_at_sphere_vertices. }
  split; [|exact Hlayout].
  intros Hsc' Hst' fuel Hfuel.
  pose proof (createSphere_terminates radius _ _ Hsc Hst fuel [] []
                Hsc' Hst' Hfuel) as Hrun.
  eexists _, _. split; [exact Hrun|]. exact (Hlayout _ _ _ Hrun).
Qed.

Lemma createSphere_vertex_layout_witness :
  exists vertices indices,
    createSphere 1 3 3 10 [] [] = Some (vertices, indices) /\
    vertex_at vertices 6 = vertex 1 3 3 1 2.
Proof.
  assert (U : is_uint 3) by (unfold is_uint, UINT_MAX; lia).
  destruct (proj1 (createSphere_vertex_layout 1 3 3 U U ltac:(lia) ltac:(lia))
              ltac:(unfold UINT_MAX; lia) ltac:(unfold UINT_MAX; lia)
              10%nat ltac:(lia)) as (vertices & indices & Hrun & Hat).
  exists vertices, indices. split; [exact Hrun|].
  exact (Hat 1 2 ltac:(lia) ltac:(lia)).
Defined.

(** X4.  When the vertex count fits the 32-bit index type and the counts
    are below [UINT_MAX], [createSphere] returns, and the triangles that it
    pushes are exactly the triangles of the grid: for every cell between
    ring [i] and ring [i+1] and between column [j] and column [j+1], the
    triangle of (i,j), (i+1,j), (i,j+1) unless the ring is the first, and
    the triangle of (i,j+1), (i+1,j), (i+1,j+1) unless the ring is the
    last.  No fuel makes it return other triangles. *)
Theorem createSphere_connectivity (radius : R) (sectorCount stackCount : Z) :
  is_uint sectorCount -> is_uint stackCount ->
  (stackCount + 1) * (sectorCount + 1) <= 4294967296 ->
  (sectorCount < UINT_MAX -> stackCount < UINT_MAX ->
   forall fuel, stackCount + sectorCount + 2 < Z.of_nat fuel ->
   exists vertices indices,
     createSphere radius sectorCount stackCount fuel [] []
       = Some (vertices, indices) /\
     forall t, In t (triangles indices) <-> grid_triangle sectorCount stackCount t)
  /\ (forall fuel vertices indices,
      createSphere radius sectorCount stackCount fuel [] []
        = Some (vertices, indices) ->
      forall t, In t (triangles indices) <-> grid_triangle sectorCount stackCount t).
Proof.
  intros Hsc Hst Hfits.
  assert (Hgrid : forall fuel vertices indices,
    createSphere radius sectorCount stackCount fuel [] []
      = Some (vertices, indices) ->
    forall t, In t (triangles indices) <-> grid_triangle sectorCount stackCount t).
  { intros fuel vertices indices Hrun t.
    apply createSphere_returns in Hrun; [|assumption..].
    destruct Hrun as (_ & _ & _ & ->). cbn [app].
    now apply In_triangles_sphere_indices. }
  split; [|exact Hgrid].
  intros Hsc' Hst' fuel Hfuel.
  pose proof (createSphere_terminates radius _ _ Hsc Hst fuel [] []
                Hsc' Hst' Hfuel) as Hrun.
  eexists _, _. split; [exact Hrun|]. exact (Hgrid _ _ _ Hrun).
Qed.

Lemma createSphere_connectivity_witness :
  exists vertices indices,
    createSphere 1 3 3 10 [] [] = Some (vertices, indices) /\
    In (5, 9, 6) (triangles indices).
Proof.
  assert (U : is_uint 3) by (unfold is_uint, UINT_MAX; lia).
  destruct (proj1 (createSphere_connectivity 1 3 3 U U ltac:(lia))
              ltac:(unfold UINT_MAX; lia) ltac:(unfold UINT_MAX; lia)
              10%nat ltac:(lia)) as (vertices & indices & Hrun & Hgrid).
  exists vertices, indices. split; [exact Hrun|].
  apply Hgrid.
  exists 1, 1. split; [lia|]. split; [lia|]. left. split; [lia | reflexivity].
Defined.

(** X5.  When the vertex count fits the 32-bit index type, no triangle
    that [createSphere] pushes repeats a vertex, and none refers to the
    first vertex of the first ring or to the last vertex of the last ring:
    these two vertices are written and never drawn. *)
Theorem createSphere_triangles_proper (radius : R) (sectorCount stackCount : Z)
    (fuel : nat) (vertices : list R) (indices : list Z) :
  is_uint sectorCount -> is_uint stackCount ->
  (stackCount + 1) * (sectorCount + 1) <= 4294967296 ->
  createSphere radius sectorCount stackCount fuel [] [] = Some (vertices, indices) ->
  forall a b c, In (a, b, c) (triangles indices) ->
    (a <> b /\ b <> c /\ a <> c) /\
    (1 <= a /\ 1 <= b /\ 1 <= c) /\
    (a <= (stackCount + 1) * (sectorCount + 1) - 2 /\
     b <= (stackCount + 1) * (sectorCount + 1) - 2 /\
     c <= (stackCount + 1) * (sectorCount + 1) - 2).
Proof.
  intros Hsc Hst Hfits Hrun a b c Hin.
  apply createSphere_returns in Hrun; [|assumption..].
  destruct Hrun as (_ & _ & _ & ->). cbn [app] in Hin.
  apply In_triangles_sphere_indices in Hin; [|assumption..].
  destruct Hin as (i & j & Hi & Hj & [[Hne E] | [Hne E]]);
    injection E as -> -> ->; unfold vertex_index; repeat split; nia.
Qed.

Lemma createSphere_triangles_proper_witness :
  exists vertices indices,
    createSphere 1 3 3 10 [] [] = Some (vertices, indices) /\
    forall a b c, In (a, b, c) (triangles indices) -> 1 <= a <= 14.
Proof.
  assert (U : is_uint 3) by (unfold is_uint, UINT_MAX; lia).
  pose proof (createSphere_terminates 1 3 3 U U 10 [] []
                ltac:(unfold UINT_MAX; lia) ltac:(unfold UINT_MAX; lia)
                ltac:(lia)) as Hrun.
  eexists _, _. split; [exact Hrun|].
  intros a b c Hin.
  pose proof (createSphere_triangles_proper 1 3 3 10 _ _ U U ltac:(lia) Hrun
                a b c Hin) as (_ & (Ha & _) & (Ha' & _)).
  lia.
Defined.

(** X6.  A sphere of a single stack has no triangle: its only ring is the
    first and the last at once, so both triangles of every cell are skipped;
    the call returns the two rings of vertices and an empty index vector. *)
Theorem createSphere_single_stack (radius : R) (sectorCount : Z) (fuel : nat) :
  is_uint sectorCount -> sectorCount < UINT_MAX ->
  sectorCount + 3 < Z.of_nat fuel ->
  exists vertices,
    createSphere radius sectorCount 1 fuel [] [] = Some (vertices, []) /\
    Z.of_nat (length vertices) = 8 * (2 * (sectorCount + 1)).
Proof.
  intros Hsc Hsc' Hfuel.
  assert (U1 : is_uint 1) by (unfold is_uint, UINT_MAX; lia).
  pose proof (createSphere_terminates radius sectorCount 1 Hsc U1 fuel [] []
                Hsc' ltac:(unfold UINT_MAX; lia) ltac:(lia)) as Hrun.
  pose proof (sphere_indices_length sectorCount 1 Hsc U1 ltac:(lia)) as Hlen.
  destruct (sphere_indices sectorCount 1) as [|k rest] eqn:E;
    [|cbn [length] in Hlen; lia].
  eexists. split; [exact Hrun|]. cbn [app].
  now rewrite (sphere_vertices_length radius sectorCount 1 Hsc U1).
Qed.

Lemma createSphere_single_stack_witness :
  exists vertices,
    createSphere 1 64 1 100 [] [] = Some (vertices, []) /\
    Z.of_nat (length vertices) = 8 * (2 * (64 + 1)).
Proof.
  apply (createSphere_single_stack 1 64 100); unfold is_uint, UINT_MAX; lia.
Defined.

End SphereExtra.

(** ** Orbits and lights *)

Module KinematicsExtra.
Import Glm GlmFunctions Kinematics KinematicsTheorems Lights.

#[local] Open Scope R_scope.

Lemma circle a r : (r * cos a) * (r * cos a) + (r * sin a) * (r * sin a) = r * r.
Proof.
  pose proof (sin2_cos2 a) as H. unfold Rsqr in H.
  replace (r * cos a * (r * cos a) + r * sin a * (r * sin a))
    with (r * r * (sin a * sin a + cos a * cos a)) by ring.
  rewrite H. ring.
Qed.

(** X7.  After the update of a frame every body but the Sun lies in the
    plane y = 0 and on the circle of radius [orbitRadius] around the body
    it orbits, at every time. *)
Theorem orbit_is_a_circle (w : World) (t : R) (i : nat) :
  (4 < length (planets w))%nat ->
  (1 <= i < length (planets w))%nat ->
  let p := draw_pos (animate t w) i in
  let c := draw_pos (animate t w) (parent_of i) in
  let r := orbitRadius (planet_at (planets w) i) in
  vy p = 0 /\
  (vx p - vx c) * (vx p - vx c) + (vz p - vz c) * (vz p - vz c) = r * r.
Proof.
  intros Hlen Hi. cbv zeta. unfold parent_of.
  destruct (Nat.eqb_spec i 4) as [->|H4].
  - rewrite draw_pos_moon by assumption.
    rewrite (draw_pos_planet t w 3) by lia.
    unfold vadd, orbit_offset. cbn [vx vy vz]. split; [ring|].
    etransitivity; [|apply (circle (t * orbitSpeed (planet_at (planets w) 4)))].
    ring.
  - rewrite draw_pos_planet by assumption.
    change (draw_pos (animate t w) 0) with zero3.
    cbn [zero3 orbit_offset vx vy vz].
    split; [reflexivity|].
    etransitivity; [|apply (circle (t * orbitSpeed (planet_at (planets w) i)))].
    ring.
Qed.

Lemma orbit_is_a_circle_witness :
  let p := draw_pos (animate 7 (initial_world loaded_textures)) 6 in
  vy p = 0 /\ vx p * vx p + vz p * vz p = 13 * 13.
Proof.
  destruct (orbit_is_a_circle (initial_world loaded_textures) 7 6)
    as [Hy Hr]; [cbn; lia | cbn; lia |].
  split; [exact Hy|].
  cbn [parent_of Nat.eqb draw_pos zero3 vx vz] in Hr.
  rewrite !Rminus_0_r in Hr. exact Hr.
Defined.

(** X8.  The position of a body that orbits the Sun repeats after
    2 PI / orbitSpeed seconds, its period. *)
Theorem orbit_is_periodic (w : World) (t : R) (i : nat) :
  (1 <= i < length (planets w))%nat -> i <> 4%nat ->
  orbitSpeed (planet_at (planets w) i) <> 0 ->
  draw_pos (animate (t + 2 * PI / orbitSpeed (planet_at (planets w) i)) w) i
  = draw_pos (animate t w) i.
Proof.
  intros Hi H4 Hw. rewrite !draw_pos_planet by assumption.
  unfold orbit_offset. set (p := planet_at (planets w) i) in *.
  replace ((t + 2 * PI / orbitSpeed p) * orbitSpeed p)
    with (t * orbitSpeed p + 2 * PI) by (field; exact Hw).
  rewrite cos_plus, sin_plus, cos_2PI, sin_2PI.
  apply vec3_eq; ring.
Qed.

Lemma orbit_is_periodic_witness :
  draw_pos (animate (1 + 2 * PI / 1) (initial_world loaded_textures)) 3
  = draw_pos (animate 1 (initial_world loaded_textures)) 3.
Proof.
  refine (orbit_is_periodic (initial_world loaded_textures) 1 3 _ _ _).
  - cbn; lia.
  - discriminate.
  - cbn [planet_at nth planets initial_world roster orbitSpeed]. lra.
Defined.

(** X9.  The update of a frame keeps the number of bodies and, of every
    body, all but its orbit angle: radius, speeds, size, colour and texture
    are never written. *)
Theorem animate_keeps_bodies (w : World) (t : R) (i : nat) :
  length (planets (animate t w)) = length (planets w) /\
  let p := planet_at (planets w) i in
  let p' := planet_at (planets (animate t w)) i in
  orbitRadius p' = orbitRadius p /\ orbitSpeed p' = orbitSpeed p /\
  selfRotateSpeed p' = selfRotateSpeed p /\ size p' = size p /\
  color p' = color p /\ texture p' = texture p.
Proof.
  cbn [animate planets]. destruct (planets w) as [|sun rest].
  - split; [reflexivity|]. now destruct i.
  - split; [cbn [animate_orbits length]; now rewrite length_map|].
    destruct i as [|i]; [cbn; now repeat split|].
    destruct (Nat.lt_ge_cases (S i) (length (sun :: rest))) as [Hin|Hout].
    + rewrite planet_at_animate_orbits by lia. cbn. now repeat split.
    + unfold planet_at. rewrite !nth_overflow; [now repeat split | exact Hout |].
      cbn [animate_orbits length] in *. now rewrite length_map.
Qed.

(** X10.  With non-negative orbit radii, the Moon's distance from the Sun
    stays between the difference and the sum of the Earth's and the Moon's
    orbit radius. *)
Theorem moon_stays_near_earth_orbit (w : World) (t : R) :
  (4 < length (planets w))%nat ->
  let re := orbitRadius (planet_at (planets w) 3) in
  let rm := orbitRadius (planet_at (planets w) 4) in
  0 <= re -> 0 <= rm ->
  let m := moonPos (animate t w) in
  (re - rm) * (re - rm) <= vx m * vx m + vz m * vz m <= (re + rm) * (re + rm).
Proof.
  intros Hlen re rm Hre Hrm m. unfold m. cbn [animate moonPos].
  rewrite !planet_at_animate_orbits, !orbit_vec_animated by lia.
  unfold vadd, orbit_offset. cbn [vx vz]. fold re rm.
  set (a := t * orbitSpeed (planet_at (planets w) 3)).
  set (b := t * orbitSpeed (planet_at (planets w) 4)).
  pose proof (COS_bound (a - b)) as [Hlo Hhi]. rewrite cos_minus in Hlo, Hhi.
  pose proof (circle a re) as Ha. pose proof (circle b rm) as Hb.
  assert (Hp : 0 <= re * rm) by now apply Rmult_le_pos.
  replace ((re * cos a + rm * cos b) * (re * cos a + rm * cos b)
           + (re * sin a + rm * sin b) * (re * sin a + rm * sin b))
    with ((re * cos a * (re * cos a) + re * sin a * (re * sin a))
          + (rm * cos b * (rm * cos b) + rm * sin b * (rm * sin b))
          + 2 * (re * rm) * (cos a * cos b + sin a * sin b)) by ring.
  rewrite Ha, Hb. split; nra.
Qed.

Lemma moon_stays_near_earth_orbit_witness :
  let m := moonPos (animate 100 (initial_world loaded_textures)) in
  (2.5 - 0.2) * (2.5 - 0.2) <= vx m * vx m + vz m * vz m
  <= (2.5 + 0.2) * (2.5 + 0.2).
Proof.
  refine (moon_stays_near_earth_orbit (initial_world loaded_textures) 100 _ _ _).
  - cbn; lia.
  - cbn [planet_at nth planets initial_world roster orbitRadius]. lra.
  - cbn [planet_at nth planets initial_world roster orbitRadius]. lra.
Defined.

(** X11.  Each extra point light sits at distance [sunRingRadius] from the
    Sun, whatever its loop index; the lights of even index sit above the
    plane of the orbits and those of odd index below it. *)
Theorem ring_lights_on_sphere (i : Z) :
  dot (ringPos i) (ringPos i) = sunRingRadius * sunRingRadius /\
  (if (Z.rem i 2 =? 0)%Z then 0 < vy (ringPos i) else vy (ringPos i) < 0).
Proof.
  unfold ringPos, dot, pi. cbn [vx vy vz].
  set (theta := two_pi * IZR i / 6).
  pose proof PI_RGT_0 as Hpi. split.
  - set (phi := PI * _).
    pose proof (sin2_cos2 theta) as Ht. pose proof (sin2_cos2 phi) as Hp.
    unfold Rsqr in Ht, Hp.
    replace (sin phi * cos theta * sunRingRadius
             * (sin phi * cos theta * sunRingRadius)
             + cos phi * sunRingRadius * (cos phi * sunRingRadius)
             + sin phi * sin theta * sunRingRadius
               * (sin phi * sin theta * sunRingRadius))
      with (sunRingRadius * sunRingRadius
            * (sin phi * sin phi * (sin theta * sin theta + cos theta * cos theta)
               + cos phi * cos phi)) by ring.
    rewrite Ht, Rmult_1_r, Hp. ring.
  - unfold sunRingRadius. destruct (Z.rem i 2 =? 0)%Z.
    + assert (0 < cos (PI * 0.33)) by (apply cos_gt_0; lra). lra.
    + assert (cos (PI * 0.66) < 0) by (apply cos_lt_0; lra). lra.
Qed.

End KinematicsExtra.

(** ** The follow camera *)

Module FollowExtra.
Import Glm GlmFunctions Kinematics Controls Follow.

#[local] Open Scope R_scope.

Lemma PI_lower : 3.13 < PI.
Proof.
  pose proof (PI_2_3_7_ineq 0) as [H _].
  unfold sum_f_R0, tg_alt, PI_2_3_7_tg, Ratan_seq in H. simpl in H.
  lra.
Qed.

Lemma offset_norm r p y :
  (r * cos p * sin y) * (r * cos p * sin y) + (r * sin p) * (r * sin p)
  + (r * cos p * cos y) * (r * cos p * cos y) = r * r.
Proof.
  pose proof (sin2_cos2 p) as Hp. pose proof (sin2_cos2 y) as Hy.
  unfold Rsqr in Hp, Hy.
  replace (r * cos p * sin y * (r * cos p * sin y) + r * sin p * (r * sin p)
           + r * cos p * cos y * (r * cos p * cos y))
    with (r * r * (cos p * cos p * (sin y * sin y + cos y * cos y)
                   + sin p * sin p)) by ring.
  rewrite Hy, Rmult_1_r, (Rplus_comm (cos p * cos p)), Hp. ring.
Qed.

Lemma clamp_range x lo hi : lo <= hi -> lo <= clamp x lo hi <= hi.
Proof.
  intros H. unfold clamp, Rmin, Rmax.
  destruct (Rle_dec x lo), (Rle_dec _ hi); lra.
Qed.

Lemma clamp_inside x lo hi : lo <= x <= hi -> clamp x lo hi = x.
Proof.
  intros H. unfold clamp, Rmin, Rmax.
  destruct (Rle_dec x lo), (Rle_dec _ hi); lra.
Qed.





End FollowExtra.

(** ** Input handling *)

Module ControlsExtra.
Import Controls ControlsTheorems Input.

#[local] Open Scope R_scope.

(** Case analysis on the comparisons of a goal, innermost first. *)
Ltac clamp_cases :=
  repeat match goal with
         | |- context [Rlt_dec ?a ?b] =>
             lazymatch a with
             | context [Rlt_dec _ _] => fail
             | _ => lazymatch b with
                    | context [Rlt_dec _ _] => fail
                    | _ => destruct (Rlt_dec a b)
                    end
             end
         end.

(** X17.  While the camera follows a body, scrolling up never moves the
    camera away and scrolling down never brings it closer; the distance
    changes by 0.2 per unit of vertical scroll where that stays within
    [0.5, 30] and stops at the nearer end otherwise; the horizontal scroll
    offset is ignored. *)
Theorem scroll_moves_camera (zmin zmax xoffset yoffset : R) (s : State) :
  cameraMode s = FOLLOW_PLANET ->
  0.5 <= orbitDistance s <= 30 ->
  let d := orbitDistance s in
  let d' := orbitDistance (scroll_callback zmin zmax xoffset yoffset s) in
  (0 <= yoffset -> d' <= d) /\ (yoffset <= 0 -> d <= d') /\
  (0.5 <= d - yoffset * 0.2 <= 30 -> d' = d - yoffset * 0.2) /\
  (d - yoffset * 0.2 < 0.5 -> d' = 0.5) /\
  (30 < d - yoffset * 0.2 -> d' = 30) /\
  (forall x', scroll_callback zmin zmax x' yoffset s
              = scroll_callback zmin zmax xoffset yoffset s).
Proof.
  intros Hmode Hd. cbv zeta. unfold scroll_callback. rewrite Hmode.
  cbn [orbitDistance].
  repeat split; try reflexivity; intros H; clamp_cases; lra.
Qed.

Lemma scroll_moves_camera_witness :
  orbitDistance (scroll_callback 1 45 0 1000 (initial (mkCamera 0 0 45))) = 0.5.
Proof.
  refine (proj1 (proj2 (proj2 (proj2
    (scroll_moves_camera 1 45 0 1000 (initial (mkCamera 0 0 45)) eq_refl _)))) _);
    cbn; lra.
Defined.

(** X18.  The callbacks act on the camera of the current mode only: while
    a body is followed they leave the free camera's angles and field of
    view alone, in free mode they leave the orbit yaw, pitch and distance
    alone, and they never change the followed body. *)
Theorem callbacks_respect_mode (ms zmin zmax x y : R) (s : State) :
  let m := mouse_callback ms x y s in
  let c := scroll_callback zmin zmax x y s in
  (cameraMode s = FOLLOW_PLANET -> camera m = camera s /\ camera c = camera s) /\
  (cameraMode s = FREE ->
   (orbitYaw m = orbitYaw s /\ orbitPitch m = orbitPitch s /\
    orbitDistance m = orbitDistance s) /\
   (orbitYaw c = orbitYaw s /\ orbitPitch c = orbitPitch s /\
    orbitDistance c = orbitDistance s)) /\
  followedPlanetIdx m = followedPlanetIdx s /\
  followedPlanetIdx c = followedPlanetIdx s /\
  orbitDistance m = orbitDistance s /\
  orbitYaw c = orbitYaw s /\ orbitPitch c = orbitPitch s.
Proof.
  cbv zeta. unfold mouse_callback, scroll_callback.
  destruct (firstMouse s), (cameraMode s); cbn;
    repeat split; intros; try discriminate; reflexivity.
Qed.

#[local] Open Scope Z_scope.

(** X19.  Keys that are held act once: a second turn of the render loop
    with the same keys down changes nothing. *)
Theorem held_keys_act_once (k : Keys) (s : State) :
  poll_keys k (poll_keys k s) = poll_keys k s.
Proof.
  destruct (poll_keys_flags k s) as (Hq & He & Hw).
  set (s1 := poll_keys k s) in *.
  unfold poll_keys at 1. rewrite Hq, He, Hw.
  destruct s1 as [mode idx cam lx ly fm ql el wl oy op od].
  cbn [qPressedLast ePressedLast wasdPressedLast cameraMode followedPlanetIdx
       camera lastX lastY firstMouse orbitYaw orbitPitch orbitDistance] in *.
  subst ql el wl.
  destruct (keyQ k), (keyE k), (wasdPressed k), mode; reflexivity.
Qed.

Lemma next_prev_idx idx : 1 <= idx <= 9 -> next_idx (prev_idx idx) = idx.
Proof.
  intros H. unfold next_idx, prev_idx.
  destruct (Z.ltb_spec (idx - 1) 1);
    [destruct (Z.gtb_spec (9 + 1) 9) | destruct (Z.gtb_spec (idx - 1 + 1) 9)]; lia.
Qed.

Lemma prev_next_idx idx : 1 <= idx <= 9 -> prev_idx (next_idx idx) = idx.
Proof.
  intros H. unfold next_idx, prev_idx.
  destruct (Z.gtb_spec (idx + 1) 9);
    [destruct (Z.ltb_spec (1 - 1) 1) | destruct (Z.ltb_spec (idx + 1 - 1) 1)]; lia.
Qed.

(** X20.  Next body and previous body undo each other on the cycle 1..9:
    a tap of Q after a tap of E, or of E after Q, leads back to the same
    body, and a turn in which both keys go down leaves the followed body as
    it is and the camera following it. *)
Theorem next_and_previous_cancel (s : State) :
  1 <= followedPlanetIdx s <= 9 ->
  qPressedLast s = false -> ePressedLast s = false ->
  followedPlanetIdx (tap only_Q (tap only_E s)) = followedPlanetIdx s /\
  followedPlanetIdx (tap only_E (tap only_Q s)) = followedPlanetIdx s /\
  followedPlanetIdx (poll_keys both_QE s) = followedPlanetIdx s /\
  cameraMode (poll_keys both_QE s) = FOLLOW_PLANET.
Proof.
  intros Hidx Hq He.
  destruct (tap_E s He) as [HE _]. destruct (tap_Q s Hq) as [HQ _].
  assert (HqE : qPressedLast (tap only_E s) = false)
    by (unfold tap; apply poll_keys_flags).
  assert (HeQ : ePressedLast (tap only_Q s) = false)
    by (unfold tap; apply poll_keys_flags).
  split; [|split; [|split]].
  - rewrite (proj1 (tap_Q _ HqE)), HE. now apply prev_next_idx.
  - rewrite (proj1 (tap_E _ HeQ)), HQ. now apply next_prev_idx.
  - rewrite poll_keys_idx. unfold previousBody, nextBody. cbn [both_QE keyQ keyE].
    rewrite Hq, He. cbn. now apply next_prev_idx.
  - rewrite poll_keys_mode. unfold previousBody, nextBody, moveStart.
    cbn [both_QE keyQ keyE]. rewrite Hq, He. reflexivity.
Qed.

Lemma next_and_previous_cancel_witness :
  followedPlanetIdx (tap only_Q (tap only_E (initial (mkCamera 0 0 45)))) = 3.
Proof.
  refine (proj1 (next_and_previous_cancel (initial (mkCamera 0 0 45)) _ eq_refl eq_refl)).
  cbn. lia.
Defined.

End ControlsExtra.

(** ** The cursor callback on floats *)

Module FloatControlsExtra.
Import Floats Controls FloatControls FloatControlsTheorems.

#[local] Open Scope R_scope.

(** X15.  The first cursor event, at a position that is finite as a float,
    only records the position: it turns neither the orbit camera nor the
    free camera (their yaw is kept, and so is a pitch that is within its
    range). *)
Theorem first_mouse_event_is_still (ms x y : R) (s : State) :
  firstMouse s = true ->
  - FLT_MAX <= x <= FLT_MAX -> - FLT_MAX <= y <= FLT_MAX ->
  let s' := mouse_callback ms x y s in
  firstMouse s' = false /\ lastX s' = Fin x /\ lastY s' = Fin y /\
  (is_float (orbitYaw s) -> orbitYaw s' = orbitYaw s) /\
  (is_float (Yaw (camera s)) -> Yaw (camera s') = Yaw (camera s)) /\
  (within (-89) 89 (orbitPitch s) -> orbitPitch s' = orbitPitch s) /\
  (within (-89) 89 (Pitch (camera s)) -> Pitch (camera s') = Pitch (camera s)).
Proof.
  intros Hfirst Hx Hy. cbv zeta. unfold mouse_callback.
  rewrite Hfirst, (of_double_finite x Hx), (of_double_finite y Hy).
  destruct (cameraMode s);
    cbn [firstMouse lastX lastY orbitYaw orbitPitch camera Yaw Pitch
         ProcessMouseMovement];
    repeat split; try (intros _; reflexivity).
  - intros H. destruct (orbitYaw s); cbn [is_float] in H;
      float_cases; try reflexivity; try lra; f_equal; lra.
  - intros H. destruct (orbitPitch s); try contradiction.
    float_cases; unfold FLT_MAX in *; try lra; f_equal; lra.
  - intros H. destruct (Yaw (camera s)); cbn [is_float] in H;
      float_cases; try reflexivity; try lra; f_equal; lra.
  - intros H. destruct (Pitch (camera s)); try contradiction.
    float_cases; unfold FLT_MAX in *; try lra; f_equal; lra.
Qed.

Lemma first_mouse_event_is_still_witness :
  let s := initial (mkCamera (Fin 0) (Fin 0) (Fin 45)) in
  orbitYaw (mouse_callback 0.1 900 (- FLT_MAX) s) = Fin 0 /\
  orbitPitch (mouse_callback 0.1 900 (- FLT_MAX) s) = Fin 20.
Proof.
  intros s.
  destruct (first_mouse_event_is_still 0.1 900 (- FLT_MAX) s eq_refl)
    as (_ & _ & _ & Hyaw & _ & Hpitch & _); try (unfold FLT_MAX; lra).
  split.
  - apply Hyaw. cbn. unfold FLT_MAX. lra.
  - apply Hpitch. cbn. lra.
Defined.

(** After a cursor event [lastX] is the cast of its horizontal position. *)
Lemma lastX_after_mouse ms zmin zmax es x y s :
  lastX (run ms zmin zmax (es ++ [Mouse x y]) s) = of_double x.
Proof.
  unfold run. rewrite fold_left_app.
  set (s1 := fold_left (step ms zmin zmax) es s).
  cbn [fold_left step]. unfold mouse_callback.
  destruct (firstMouse s1), (cameraMode s1); reflexivity.
Qed.

(** One cursor or scroll event while a body is followed: [lastX] stays
    within the bound and [orbitYaw - 0.15 * lastX] stays what it is. *)
Lemma yaw_step (ms zmin zmax K : R) (e : event) (s : State) :
  - (1.15 * cursor_bound) <= K <= 1.15 * cursor_bound ->
  cursor_within cursor_bound e ->
  cameraMode s = FOLLOW_PLANET -> firstMouse s = false ->
  within (- cursor_bound) cursor_bound (lastX s) ->
  finite (orbitYaw s) ->
  value (orbitYaw s) - 0.15 * value (lastX s) = K ->
  let s' := step ms zmin zmax s e in
  cameraMode s' = FOLLOW_PLANET /\ firstMouse s' = false /\
  within (- cursor_bound) cursor_bound (lastX s') /\
  finite (orbitYaw s') /\
  value (orbitYaw s') - 0.15 * value (lastX s') = K.
Proof.
  intros HK He Hmode Hfirst Hl Ha Hinv. cbv zeta.
  destruct e as [k|x y|x y]; cbn [cursor_within] in He; [contradiction| |];
    cbn [step].
  - unfold mouse_callback. rewrite Hmode, Hfirst.
    cbn [cameraMode firstMouse lastX orbitYaw].
    destruct (lastX s) as [l| | |]; try contradiction.
    destruct (orbitYaw s) as [a| | |]; try contradiction.
    cbn [value within] in *.
    float_cases; unfold cursor_bound, FLT_MAX in *; cbn [value];
      repeat split; lra.
  - unfold scroll_callback. rewrite Hmode.
    cbn [cameraMode firstMouse lastX orbitYaw]. now repeat split.
Qed.



End FloatControlsExtra.

(** ** The asteroid belt and the generator *)

Module AsteroidsExtra.
Import Glm Asteroids AsteroidsTheorems.

#[local] Open Scope R_scope.

(** X21.  Generating [n] asteroids calls [rand()] exactly [3 n] times: the
    generator is left in the state that three calls per asteroid lead to;
    for a count of zero or less nothing is generated and [rand()] is not
    called. *)
Theorem generate_draws_three_each (rng : Type) (rand : rng -> Z * rng)
    (RAND_MAX : Z) (n : Z) (seed : rng) :
  snd (generate rng rand RAND_MAX n seed) = skip rng rand (3 * Z.to_nat n) seed /\
  ((n <= 0)%Z -> generate rng rand RAND_MAX n seed = (mkBelt [] [], seed)).
Proof.
  split.
  - unfold generate.
    change seed with (skip rng rand (3 * 0) seed) at 1.
    change 0%Z with (Z.of_nat 0).
    now rewrite belt_loop_run.
  - intros Hn. unfold generate.
    replace (Z.to_nat n) with 0%nat by lia. reflexivity.
Qed.

(** X22.  Whatever [rand()] returns within [0, RAND_MAX], every asteroid
    gets a scale between 0.02 and 0.0375 and a height within 0.125 of the
    plane of the orbits. *)
Theorem asteroid_sizes (rng : Type) (rand : rng -> Z * rng) (RAND_MAX : Z)
    (n : Z) (seed : rng) :
  (0 < RAND_MAX)%Z ->
  (forall g, (0 <= fst (rand g) <= RAND_MAX)%Z) ->
  let belt := fst (generate rng rand RAND_MAX n seed) in
  Forall (fun scale => 0.02 <= scale <= 0.0375) (asteroidScales belt) /\
  Forall (fun p => -0.125 <= vy p <= 0.125) (asteroidPositions belt).
Proof.
  intros Hmax Hrand belt. unfold belt. rewrite generate_run.
  cbn [asteroidPositions asteroidScales].
  split; apply Forall_map, Forall_forall; intros i _.
  - pose proof (unit_draw_range rng rand RAND_MAX Hmax Hrand (3 * i + 2) seed).
    unfold scale_of. lra.
  - pose proof (unit_draw_range rng rand RAND_MAX Hmax Hrand (3 * i + 1) seed).
    unfold position_of, height_of. cbn [vy]. lra.
Qed.

Lemma asteroid_sizes_witness :
  Forall (fun scale => 0.02 <= scale <= 0.0375)
    (asteroidScales (fst (generate Z sample_rand sample_RAND_MAX asteroidCount 1%Z))).
Proof.
  refine (proj1 (asteroid_sizes Z sample_rand sample_RAND_MAX asteroidCount 1%Z
                   _ sample_rand_range)).
  reflexivity.
Defined.

End AsteroidsExtra.

(** ** Textures and timing *)

Module MiscExtra.
Import Texture Timing.

(** X23.  The pixel format that [loadTexture] chooses has as many bytes per
    pixel as the image has channels exactly for 1, 3 and 4 channels; for
    every other count, the two channels of a grey image with alpha
    included, it is GL_RGB, three bytes per pixel. *)
Theorem texture_format_matches (nrComponents : Z) :
  (bytes_per_pixel (texture_format nrComponents) = nrComponents <->
   nrComponents = 1 \/ nrComponents = 3 \/ nrComponents = 4) /\
  (nrComponents <> 1 -> nrComponents <> 4 ->
   texture_format nrComponents = GL_RGB).
Proof.
  unfold texture_format.
  destruct (Z.eqb_spec nrComponents 1), (Z.eqb_spec nrComponents 3),
    (Z.eqb_spec nrComponents 4); cbn [bytes_per_pixel]; split;
    try (intros; congruence); split; intros; lia.
Qed.

#[local] Open Scope R_scope.

Lemma last_cons (l : list R) : forall a d, last (a :: l) d = last l a.
Proof.
  induction l as [|b l IH]; intros a d; [reflexivity|].
  change (last (a :: b :: l) d) with (last (b :: l) d).
  now rewrite !IH.
Qed.

(** X24.  The values that [deltaTime] takes over consecutive turns of the
    render loop add up to the time of the last turn minus the time of the
    turn before the first: no time is lost or counted twice, however the
    frames are spaced. *)
Theorem deltas_add_up (times : list R) : forall c : Clock,
  fold_right Rplus 0 (deltas c times) = last times (lastFrame c) - lastFrame c.
Proof.
  induction times as [|t times IH]; intros c.
  - cbn. ring.
  - cbn [deltas fold_right]. rewrite IH, last_cons.
    cbn [tick deltaTime lastFrame]. ring.
Qed.

End MiscExtra.
